(** * plex-for-channels: the stream proxy and the EPG scheduler of [pywsgi.py]

    A shallow embedding of the parts of [pywsgi.py] that carry the proxy's
    logic: the HLS playlist rewriter, the slug registry and its handlers, the
    segment proxy, and the per-provider scheduler thread.

    Modelling conventions.
    - A Python [str] is a [string]; a character is an 8-bit code point.
    - The two process-wide dictionaries [stream_map] and [segment_base_map]
      are [gmap string string], threaded through the handlers as a state.
    - Calls that leave the process ([requests.get], the provider's [epg()],
      [schedule.run_pending], [time.sleep]) take their outcome from an
      explicit argument; what the code prints, sleeps and calls is recorded
      in a trace.
    - A Python exception is an [Exception] instance, kept as the text that
      [str(e)] renders; [print] does not fail.
    - Requests are served one at a time: [map_lock] makes every access to
      the dictionaries atomic, and no route holds it across two accesses.
    - The scheduler thread is run against a script: the outcomes of the
      calls it makes, pass by pass.
    - The file routes and the logo route read and write a map from path to
      content. [monitor_thread], [/epg.xml] and the routes that only pass
      a provider's answer on are not modelled. *)

From Stdlib Require Import Ascii.
From stdpp Require Import gmap strings list fin_maps.

(** ** Python string primitives *)

Module PyStr.

(** The line feed and the carriage return, as characters and as strings. *)
Definition LF : ascii := "010".
Definition CR : ascii := "013".
Definition nl : string := String LF EmptyString.
Definition cr : string := String CR EmptyString.

(** [str.isspace] of one character, for the code points below 256. *)
Definition isspace (c : ascii) : bool :=
  match c with
  | "009" | "010" | "011" | "012" | "013"
  | "028" | "029" | "030" | "031" | " " | "133" | "160" => true
  | _ => false
  end%char.

(** [c in s] for a one-character [c]. *)
Fixpoint contains (c : ascii) (s : string) : bool :=
  match s with
  | EmptyString => false
  | String d s' => if decide (d = c) then true else contains c s'
  end.

(** [s.startswith(p)]. *)
Fixpoint startswith (s p : string) : bool :=
  match p, s with
  | EmptyString, _ => true
  | String _ _, EmptyString => false
  | String a p', String b s' => if decide (a = b) then startswith s' p' else false
  end.

(** [s.endswith(suf)]: [suf] is [s] or a suffix of the tail of [s]. *)
Fixpoint endswith (s suf : string) : bool :=
  if decide (s = suf) then true
  else match s with
       | EmptyString => false
       | String _ s' => endswith s' suf
       end.

(** [s.split(sep)] for a one-character separator: never the empty list. *)
Fixpoint split (sep : ascii) (s : string) : list string :=
  match s with
  | EmptyString => [EmptyString]
  | String c s' =>
      if decide (c = sep) then EmptyString :: split sep s'
      else match split sep s' with
           | [] => [String c EmptyString]
           | h :: t => String c h :: t
           end
  end.

(** [sep.join(parts)]. *)
Fixpoint join (sep : string) (parts : list string) : string :=
  match parts with
  | [] => EmptyString
  | [x] => x
  | x :: xs => x +:+ sep +:+ join sep xs
  end.

(** [parts[0]] and [parts[-1]] of a list that [split] returned. *)
Definition first_item (parts : list string) : string := hd EmptyString parts.
Definition last_item (parts : list string) : string := List.last parts EmptyString.

(** [s.rsplit(sep, 1)[0]]: what stands before the last [sep], or all of [s]
    when [sep] does not occur. *)
Fixpoint rsplit1_head (sep : ascii) (s : string) : string :=
  match s with
  | EmptyString => EmptyString
  | String c s' =>
      if contains sep s' then String c (rsplit1_head sep s')
      else if decide (c = sep) then EmptyString
      else s
  end.

(** [s.lstrip()], [s.rstrip()] and [s.strip()]. *)
Fixpoint lstrip (s : string) : string :=
  match s with
  | EmptyString => EmptyString
  | String c s' => if isspace c then lstrip s' else s
  end.

Fixpoint rstrip (s : string) : string :=
  match s with
  | EmptyString => EmptyString
  | String c s' =>
      match rstrip s' with
      | EmptyString => if isspace c then EmptyString else String c EmptyString
      | r => String c r
      end
  end.

Definition strip (s : string) : string := rstrip (lstrip s).

(** Every character of [s] is white space. *)
Fixpoint all_space (s : string) : bool :=
  match s with
  | EmptyString => true
  | String c s' => isspace c && all_space s'
  end.

(** [s[-1]], when [s] is not empty. *)
Fixpoint last_char (s : string) : option ascii :=
  match s with
  | EmptyString => None
  | String c EmptyString => Some c
  | String _ s' => last_char s'
  end.

(** Truth value of a string: [not s] holds of the empty string only. *)
Definition truthy (s : string) : bool :=
  match s with EmptyString => false | _ => true end.

(** [s.upper()] and [s.lower()] on ASCII letters (provider names are the
    ASCII module names of [PROVIDER_LIST]). *)
Definition upper_char (c : ascii) : ascii :=
  let n := nat_of_ascii c in
  if (97 <=? n)%nat && (n <=? 122)%nat then ascii_of_nat (n - 32) else c.

Definition lower_char (c : ascii) : ascii :=
  let n := nat_of_ascii c in
  if (65 <=? n)%nat && (n <=? 90)%nat then ascii_of_nat (n + 32) else c.

Fixpoint upper (s : string) : string :=
  match s with
  | EmptyString => EmptyString
  | String c s' => String (upper_char c) (upper s')
  end.

Fixpoint lower (s : string) : string :=
  match s with
  | EmptyString => EmptyString
  | String c s' => String (lower_char c) (lower s')
  end.

End PyStr.

Import PyStr.

(** ** The HLS playlist rewriter *)

(** [line.split('/')[-1].split('.')[0]]: the text after the last slash, up
    to its first dot. *)
Definition segment_num (line : string) : string :=
  first_item (split "." (last_item (split "/" line))).

(** The body of the [for] loop of [rewrite_hls_playlist]: what is appended
    to [rewritten] for one [line]. *)
Definition rewrite_line (slug line : string) : string :=
  if startswith line "#" || negb (truthy (strip line)) then line
  else if endswith line ".ts" then
    "/segment/" +:+ slug +:+ "/" +:+ segment_num line +:+ ".ts"
  else if endswith line ".m3u8" then
    "/stream/" +:+ segment_num line
  else line.

(** The list [rewritten] after the loop has run over [lines]. *)
Definition rewritten_lines (slug : string) (lines : list string) : list string :=
  fold_left (fun rewritten line => rewritten ++ [rewrite_line slug line]) lines [].

(** [rewrite_hls_playlist(playlist_content, slug, base_url)]; the function
    never reads [base_url]. *)
Definition rewrite_hls_playlist (playlist_content slug base_url : string) : string :=
  let lines := split LF playlist_content in
  join nl (rewritten_lines slug lines).

(** ** The process state and its effects *)

(** What a call returns, or the exception it raises. *)
Inductive outcome (A : Type) : Type :=
  | Returned (a : A)
  | Raised (e : string).
Arguments Returned {A} a.
Arguments Raised {A} e.

(** What the process does that can be seen from outside. *)
Inductive event : Type :=
  | Printed (line : string)
  | Fetched (url : string) (headers : list (string * string)) (stream : bool)
  | Slept (seconds : nat)
  | EpgCalled (provider : string).

(** The module-level state: the two proxy dictionaries, the trigger events
    (an [Event] is its flag), the jobs of the default scheduler (provider and
    period in minutes), and the trace of effects so far. *)
Record world : Type := World {
  stream_map : gmap string string;
  segment_base_map : gmap string string;
  trigger_events : gmap string bool;
  jobs : list (string * nat);
  trace : list event
}.

Definition initial_world : world := World ∅ ∅ ∅ [] [].

Definition set_stream_map (f : gmap string string → gmap string string) (w : world) : world :=
  World (f (stream_map w)) (segment_base_map w) (trigger_events w) (jobs w) (trace w).
Definition set_segment_base_map (f : gmap string string → gmap string string) (w : world) : world :=
  World (stream_map w) (f (segment_base_map w)) (trigger_events w) (jobs w) (trace w).
Definition set_trigger_events (f : gmap string bool → gmap string bool) (w : world) : world :=
  World (stream_map w) (segment_base_map w) (f (trigger_events w)) (jobs w) (trace w).
Definition set_jobs (f : list (string * nat) → list (string * nat)) (w : world) : world :=
  World (stream_map w) (segment_base_map w) (trigger_events w) (f (jobs w)) (trace w).
Definition emit (e : event) (w : world) : world :=
  World (stream_map w) (segment_base_map w) (trigger_events w) (jobs w) (trace w ++ [e]).

(** Code that reads and writes the state and may raise. *)
Definition M (A : Type) : Type := world → outcome A * world.

#[global] Instance M_ret : MRet M := λ A a w, (Returned a, w).
#[global] Instance M_bind : MBind M := λ A B f m w,
  match m w with
  | (Returned a, w') => f a w'
  | (Raised e, w') => (Raised e, w')
  end.

Definition raise {A} (e : string) : M A := λ w, (Raised e, w).
Definition gets {A} (f : world → A) : M A := λ w, (Returned (f w), w).
Definition modify (f : world → world) : M unit := λ w, (Returned tt, f w).

(** [try: body / except Exception as e: handler(e)]. *)
Definition try_except {A} (body : M A) (handler : string → M A) : M A := λ w,
  match body w with
  | (Returned a, w') => (Returned a, w')
  | (Raised e, w') => handler e w'
  end.

(** A call that leaves the process: its effect is recorded, its outcome is
    the one the environment gives. *)
Definition external {A} (e : event) (result : outcome A) : M A := λ w, (result, emit e w).

Definition print (line : string) : M unit := modify (emit (Printed line)).

(** ** The proxy routes *)

(** What a route hands back to Flask: [abort(code)], [redirect(url, code)],
    a text with its status, or a [Response] (status 200 unless given). *)
Inductive body : Type :=
  | Text (content : string)
  | Streamed (content : string).

Inductive response : Type :=
  | Abort (code : nat)
  | Redirect (location : string) (code : nat)
  | Plain (text : string) (status : nat)
  | Response (b : body) (status : nat) (content_type : string)
      (headers : list (string * string)).

(** The part of a [requests.Response] the routes read. *)
Record upstream_response : Type := Upstream {
  status_code : nat;
  resp_headers : list (string * string);
  content : string
}.

(** [headers[name]] of the case-insensitive header dictionary. *)
Fixpoint header_get (name : string) (headers : list (string * string)) : option string :=
  match headers with
  | [] => None
  | (k, v) :: rest => if decide (lower k = lower name) then Some v else header_get name rest
  end.

(** [response.raise_for_status()]: an [HTTPError] for a 4xx or 5xx status. *)
Definition raise_for_status (r : upstream_response) : M unit :=
  if (400 <=? status_code r)%nat && (status_code r <? 600)%nat
  then raise "HTTPError" else mret tt.

(** [not url] for what [dict.get] returned: [None] or the empty string. *)
Definition falsy (o : option string) : bool :=
  match o with
  | None => true
  | Some s => negb (truthy s)
  end.

(** [url.rsplit('/', 1)[0] + '/']. *)
Definition base_url_of (url : string) : string := rsplit1_head "/" url +:+ "/".

(** [POST /register], first handler: [stream_map.update(new_map)]. The parsed
    body is a JSON object of strings; a body [get_json] rejects raises out of
    the handler. *)
Definition register (json : outcome (gmap string string)) : M response :=
  new_map ← (λ w, (json, w));
  modify (set_stream_map (λ m, new_map ∪ m)) ;;
  mret (Plain "OK" 200).

(** [POST /register], second handler: the same update inside [try]. *)
Definition register_proxy_map (json : outcome (gmap string string)) : M response :=
  try_except
    (data ← (λ w, (json, w));
     modify (set_stream_map (λ m, data ∪ m)) ;;
     mret (Plain "Proxy map updated" 200))
    (λ e, mret (Plain ("Failed to register proxy map: " +:+ e) 500)).

(** [GET /stream/<slug>]. *)
Definition stream (slug : string) : M response :=
  url ← gets (λ w, stream_map w !! slug);
  if falsy url then mret (Abort 404)
  else
    let url := default "" url in
    (if endswith url ".m3u8"
     then
       let base_url := base_url_of url in
       modify (set_segment_base_map (<[slug := base_url]>))
     else mret tt) ;;
    mret (Redirect url 302).

(** [GET /hls/<slug>.m3u8]; [upstream] is the outcome of [requests.get(url)]. *)
Definition hls_playlist (slug : string) (upstream : outcome upstream_response) : M response :=
  url ← gets (λ w, stream_map w !! slug);
  if falsy url then mret (Abort 404)
  else
    let url := default "" url in
    try_except
      (response ← external (Fetched url [] false) upstream;
       raise_for_status response ;;
       let base_url := base_url_of url in
       let rewritten := rewrite_hls_playlist (content response) slug base_url in
       mret (Response (Text rewritten) 200 "application/vnd.apple.mpegurl"
               [("Cache-Control", "public, max-age=300")]))
      (λ e, print ("[HLS PLAYLIST ERROR] " +:+ e) ;; mret (Abort 502)).

Section segment_proxy.

(** [urllib.parse.urljoin], which is not part of this program. *)
Variable urljoin : string → string → outcome string.

(** [GET /segment/<slug>/<index>.ts]; [range] is [request.headers.get('Range')]
    and [upstream] the outcome of the streaming [requests.get]. *)
Definition segment_proxy (slug index : string) (range : option string)
    (upstream : outcome upstream_response) : M response :=
  base_url ← gets (λ w, segment_base_map w !! slug);
  if falsy base_url then mret (Abort 404)
  else
    let base_url := default "" base_url in
    segment_url ← (λ w, (urljoin base_url (index +:+ ".ts"), w));
    try_except
      (let headers := if falsy range then [] else [("Range", default "" range)] in
       req ← external (Fetched segment_url headers true) upstream;
       match header_get "content-type" (resp_headers req) with
       | Some content_type =>
           mret (Response (Streamed (content req)) (status_code req) content_type
                   [("Accept-Ranges", "bytes");
                    ("Cache-Control", "public, max-age=86400")])
       | None => raise "KeyError: 'content-type'"
       end)
      (λ e, print ("[SEGMENT ERROR] " +:+ e) ;; mret (Abort 502)).

(** One request to the proxy routes, with the outcomes of the calls it makes.
    Flask hands [POST /register] to the first handler registered for it. *)
Inductive request : Type :=
  | PostRegister (json : outcome (gmap string string))
  | GetStream (slug : string)
  | GetHls (slug : string) (upstream : outcome upstream_response)
  | GetSegment (slug index : string) (range : option string)
      (upstream : outcome upstream_response).

Definition handle (r : request) : M response :=
  match r with
  | PostRegister json => register json
  | GetStream slug => stream slug
  | GetHls slug upstream => hls_playlist slug upstream
  | GetSegment slug index range upstream => segment_proxy slug index range upstream
  end.

(** The state after the requests have been served one after the other. *)
Definition serve (requests : list request) (w : world) : world :=
  fold_left (λ w r, snd (handle r w)) requests w.

End segment_proxy.

(** ** The EPG scheduler *)

(** What [providers[provider].epg()] does: it returns [None] or an error
    text, or it raises. *)
Definition epg_outcome : Type := outcome (option string).

(** [trigger_epg_build(provider)]. *)
Definition trigger_epg_build (provider : string) : M unit :=
  known ← gets (λ w, bool_decide (is_Some (trigger_events w !! provider)));
  if (known : bool) then modify (set_trigger_events (<[provider := true]>))
  else print ("[ERROR - " +:+ provider +:+ "] No scheduler thread found for provider: "
              +:+ provider).

(** [epg_scheduler(provider)]; [epg] is what the provider's [epg()] does in
    this call. *)
Definition epg_scheduler (provider : string) (epg : epg_outcome) : M unit :=
  print ("[INFO - " +:+ upper provider +:+ "] Running EPG Scheduler for " +:+ provider) ;;
  try_except
    (error ← external (EpgCalled provider) epg;
     if falsy error then mret tt
     else print ("[ERROR - " +:+ upper provider +:+ "] EPG: " +:+ default "" error))
    (λ e, print ("[ERROR - " +:+ upper provider +:+ "] Exception in EPG Scheduler: " +:+ e)) ;;
  print ("[INFO - " +:+ upper provider +:+ "] EPG Scheduler Complete").

(** The period, in minutes, of the job [scheduler_thread] registers. *)
Definition period_minutes (provider : string) : nat :=
  if decide (lower provider = "plex") then 10 else 60.

(** What the environment does during one pass of the main loop: whether a
    route has called [trigger_epg_build] since the last pass, the jobs that
    [schedule.run_pending()] finds due (each calls [epg_scheduler] for its
    provider) and the exception it raises after them, if any, what [epg()]
    does if the manual trigger runs it, and the exception [time.sleep(1)]
    raises, if any. *)
Record tick : Type := Tick {
  t_trigger : bool;
  t_due : list (string * epg_outcome);
  t_pending_raises : option string;
  t_manual : epg_outcome;
  t_sleep_raises : option string
}.

Definition raise_if (e : option string) : M unit :=
  match e with
  | Some e => raise e
  | None => mret tt
  end.

(** [schedule.run_pending()]. *)
Fixpoint run_jobs (due : list (string * epg_outcome)) : M unit :=
  match due with
  | [] => mret tt
  | (p, epg) :: rest => epg_scheduler p epg ;; run_jobs rest
  end.

Definition run_pending (t : tick) : M unit :=
  run_jobs (t_due t) ;; raise_if (t_pending_raises t).

(** [time.sleep(seconds)]. *)
Definition sleep (seconds : nat) (raises : option string) : M unit :=
  modify (emit (Slept seconds)) ;; raise_if raises.

(** The [try] block of the main loop. *)
Definition loop_body (provider : string) (t : tick) : M unit :=
  run_pending t ;;
  is_set ← gets (λ w, default false (trigger_events w !! provider));
  (if (is_set : bool) then
     print ("[MANUAL TRIGGER - " +:+ upper provider +:+ "] Running epg_scheduler manually...") ;;
     epg_scheduler provider (t_manual t) ;;
     modify (set_trigger_events (<[provider := false]>))
   else mret tt) ;;
  sleep 1 (t_sleep_raises t).

(** Where the scheduler thread stands when the environment's script ends. *)
Inductive phase : Type := Initializing | Running | Dead.

(** The first [while True]: one [epg] outcome is used per attempt. The loop
    is left by [break] when [epg_scheduler] returns; an exception is printed,
    followed by [time.sleep(10)] and the next attempt. *)
Fixpoint initial_loop (provider : string) (script : list epg_outcome) (w : world)
    : phase * world :=
  match script with
  | [] => (Initializing, w)
  | epg :: script' =>
      match epg_scheduler provider epg w with
      | (Returned _, w') => (Running, w')
      | (Raised e, w') =>
          let w'' := snd (print ("[ERROR - " +:+ upper provider
                                 +:+ "] Error in initial run, retrying: " +:+ e) w') in
          initial_loop provider script' (emit (Slept 10) w'')
      end
  end.

(** The second [while True]: one [tick] per pass; the first exception of the
    [try] block is printed and the loop is left by [break]. *)
Fixpoint main_loop (provider : string) (ticks : list tick) (w : world) : phase * world :=
  match ticks with
  | [] => (Running, w)
  | t :: ticks' =>
      let w := if t_trigger t then snd (trigger_epg_build provider w) else w in
      match loop_body provider t w with
      | (Returned _, w') => main_loop provider ticks' w'
      | (Raised e, w') =>
          (Dead, snd (print ("[ERROR - " +:+ upper provider
                             +:+ "] Error in scheduler thread: " +:+ e) w'))
      end
  end.

(** [scheduler_thread(provider)], run against the outcomes of the initial
    attempts and the passes of the main loop. *)
Definition scheduler_thread (provider : string) (script : list epg_outcome)
    (ticks : list tick) (w : world) : phase * world :=
  let w := if bool_decide (is_Some (trigger_events w !! provider)) then w
           else set_trigger_events (<[provider := false]>) w in
  let w := set_jobs (λ js, js ++ [(provider, period_minutes provider)]) w in
  match initial_loop provider script w with
  | (Running, w') => main_loop provider ticks w'
  | stopped => stopped
  end.

(** The exception that ends a pass of the main loop, if one does. *)
Definition body_raises (t : tick) : option string :=
  match t_pending_raises t with
  | Some e => Some e
  | None => t_sleep_raises t
  end.


(** An upstream failure as the specification counts it: the request raises,
    or it is answered with a status outside 200..299. *)
Definition upstream_failure (upstream : outcome upstream_response) : bool :=
  match upstream with
  | Raised _ => true
  | Returned r => negb ((200 <=? status_code r)%nat && (status_code r <? 300)%nat)
  end.


(** A pass of the main loop in which an exception reaches the [except]. *)
Definition raising (t : tick) : bool :=
  match body_raises t with
  | Some _ => true
  | None => false
  end.

(** The line [epg_scheduler] prints about a failed [epg()]: none when
    [epg()] returned nothing (or an empty text). *)
Definition epg_error_line (provider : string) (epg : epg_outcome) : list event :=
  match epg with
  | Returned error =>
      if falsy error then []
      else [Printed ("[ERROR - " +:+ upper provider +:+ "] EPG: " +:+ default "" error)]
  | Raised e =>
      [Printed ("[ERROR - " +:+ upper provider +:+ "] Exception in EPG Scheduler: " +:+ e)]
  end.


(** ** More of the scheduler: the trigger route and the count of refreshes *)

(** [GET /<provider>/build_epg]. *)
Definition build_epg (provider : string) : M response :=
  trigger_epg_build provider ;;
  mret (Plain "Manually Triggering EPG" 200).

(** How often the trace shows a call of [epg()] of [provider]. *)
Definition is_epg_call (provider : string) (e : event) : bool :=
  match e with
  | EpgCalled p => bool_decide (p = provider)
  | _ => false
  end.

Definition epg_calls (provider : string) (tr : list event) : nat :=
  length (List.filter (is_epg_call provider) tr).

(** The jobs of [provider] among those a pass finds due. *)
Definition due_calls (provider : string) (t : tick) : nat :=
  length (List.filter (λ job, bool_decide (fst job = provider)) (t_due t)).

(** The refreshes of [provider] that the passes ask for when the trigger
    event stands at [flag] before the first of them: its due jobs, and one
    manual refresh in every pass that finds the event set. *)
Fixpoint wanted_calls (provider : string) (flag : bool) (ticks : list tick) : nat :=
  match ticks with
  | [] => 0
  | t :: ticks' =>
      due_calls provider t + (if flag || t_trigger t then 1 else 0)
      + wanted_calls provider false ticks'
  end.

(** ** The playlist redirects and the EPG file routes *)






(** What a file route answers: the result of [send_file], a text with its
    status, or [abort(code)]. *)
Inductive file_answer : Type :=
  | FileSent (path : string) (mimetype : option string) (as_attachment : bool)
      (download_name : option string)
  | Said (text : string) (status : nat)
  | Aborted (code : nat).

(** [send_file(path, ...)] over the files on disk (path to content): [None]
    stands for the [FileNotFoundError] it raises when no file has the path. *)
Definition send_file (files : gmap string string) (path : string)
    (mimetype : option string) (as_attachment : bool) (download_name : option string)
    : option file_answer :=
  match files !! path with
  | Some _ => Some (FileSent path mimetype as_attachment download_name)
  | None => None
  end.

(** [GET /epg-<region>.xml]. *)
Definition region_epg (region : string) (files : gmap string string) : file_answer :=
  let file_path := "data/plex/epg-" +:+ region +:+ ".xml" in
  match send_file files file_path (Some "application/xml; charset=utf-8") false None with
  | Some sent => sent
  | None => Said "EPG is still being generated. Please try again shortly." 503
  end.

(** [GET /<provider>/<filename>]. The suffix is compared in lower case with
    ['xml'] and ['gz']; only ASCII letters can make that comparison hold, so
    [lower] decides it as [str.lower] does. *)
Definition epg_xml (provider filename : string) (files : gmap string string) : file_answer :=
  let file_path := "data/" +:+ provider +:+ "/" +:+ filename in
  let suffix := if contains "." filename then last_item (split "." filename) else "" in
  if decide (lower suffix = "xml") then
    match send_file files file_path (Some "text/plain") false (Some filename) with
    | Some sent => sent
    | None => Said "XML Being Generated Please Standby" 404
    end
  else if decide (lower suffix = "gz") then
    match send_file files file_path None true (Some filename) with
    | Some sent => sent
    | None => Said "XML Being Generated Please Standby" 404
    end
  else Said (file_path +:+ " file not found") 404.

(** ** The logo route *)

From stdpp Require pretty.

(** The route keeps its files under [logo_dir]; the files on disk are a map
    from path to content, and the process runs in the directory of
    [pywsgi.py], so that [os.path.exists], [open] and [send_file] name the
    same files. A route parameter holds no slash: [os.path.join] puts the
    name under the directory. *)
Definition logo_path (name : string) : string := "./logos/" +:+ name.

(** [s[0:n]]. *)
Fixpoint str_take (n : nat) (s : string) : string :=
  match n, s with
  | S n', String c s' => String c (str_take n' s')
  | _, _ => EmptyString
  end.

(** [needle in s]. *)
Fixpoint contains_str (s needle : string) : bool :=
  startswith s needle
  || match s with
     | EmptyString => false
     | String _ s' => contains_str s' needle
     end.

(** The part of a [requests.Response] the route reads. *)
Record logo_response : Type := LogoResponse {
  l_status : nat;
  l_headers : list (string * string);
  l_content : string;
  l_url : string
}.

(** What the route does that can be seen from outside: a line printed, and
    [requests.get(url, timeout=5, headers=headers, allow_redirects=...)]. *)
Inductive logo_event : Type :=
  | LogoPrinted (line : string)
  | LogoFetched (url : string) (headers : gmap string string) (allow_redirects : bool).

Record disk_state : Type := DiskState {
  disk_files : gmap string string;
  logo_trace : list logo_event
}.

Definition logo_say (line : string) (st : disk_state) : disk_state :=
  DiskState (disk_files st) (logo_trace st ++ [LogoPrinted line]).

(** [with open(path, "wb") as f: f.write(content)]. *)
Definition logo_write (path content : string) (st : disk_state) : disk_state :=
  DiskState (<[path := content]> (disk_files st)) (logo_trace st).

(** [os.path.exists(path)]. *)
Definition logo_exists (path : string) (st : disk_state) : bool :=
  bool_decide (is_Some (disk_files st !! path)).

(** [send_file(path, mimetype="image/png")] of a file that is on disk. *)
Definition sent_png (path : string) : file_answer :=
  FileSent path (Some "image/png") false None.

(** The provider client, as far as the route reads it: the values of
    [token_keychain] in the dictionary's order, [headers] and [device_id]. *)
Record plex_client : Type := PlexClient {
  token_keychain : list (gmap string string);
  client_headers : gmap string string;
  device_id : string
}.

(** [next((data.get("access_token") for data in ... if "access_token" in data), None)]. *)
Fixpoint first_token (values : list (gmap string string)) : option string :=
  match values with
  | [] => None
  | data :: rest =>
      match data !! "access_token" with
      | Some token => Some token
      | None => first_token rest
      end
  end.

Definition dq : string := String "034" EmptyString.

(** [client.headers.copy()] after [update] with the browser headers. *)
Definition logo_headers (client : plex_client) (token : string) : gmap string string :=
  list_to_map
    [("Accept", "image/webp,image/apng,image/*,*/*;q=0.8");
     ("Accept-Language", "en-US,en;q=0.9");
     ("Connection", "keep-alive");
     ("Origin", "https://app.plex.tv");
     ("Referer", "https://app.plex.tv/");
     ("Sec-Fetch-Dest", "image");
     ("Sec-Fetch-Mode", "cors");
     ("Sec-Fetch-Site", "same-site");
     ("User-Agent",
      "Mozilla/5.0 (Macintosh; Intel Mac OS X 10_15_7) AppleWebKit/537.36 (KHTML, like Gecko) Chrome/132.0.0.0 Safari/537.36");
     ("sec-ch-ua",
      dq +:+ "Not A(Brand" +:+ dq +:+ ";v=" +:+ dq +:+ "8" +:+ dq +:+ ", "
      +:+ dq +:+ "Chromium" +:+ dq +:+ ";v=" +:+ dq +:+ "132" +:+ dq +:+ ", "
      +:+ dq +:+ "Google Chrome" +:+ dq +:+ ";v=" +:+ dq +:+ "132" +:+ dq);
     ("sec-ch-ua-mobile", "?0");
     ("sec-ch-ua-platform", dq +:+ "macOS" +:+ dq);
     ("x-plex-token", if truthy token then token else "");
     ("x-plex-client-identifier", device_id client)]
  ∪ client_headers client.

Definition url_patterns (channel_id : string) : list string :=
  ["https://provider-static.plex.tv/epg/channels/logos/gracenote/" +:+ channel_id +:+ ".png";
   "https://provider-static.plex.tv/2/epg/channels/logos/gracenote/" +:+ channel_id +:+ ".png";
   "https://provider-static.plex.tv/proxy?url=https://gracenote-h.akamaihd.net/i/tvlogos/tms/"
   +:+ channel_id +:+ "_h3_aa.png"].

(** The bytes written when PIL is missing. *)
Definition empty_png : string :=
  Stdlib.Strings.String.string_of_list_ascii
    (map ascii_of_nat
       [137; 80; 78; 71; 13; 10; 26; 10; 0; 0; 0; 13; 73; 72; 68; 82; 0; 0; 0; 1; 0; 0; 0; 1;
        8; 6; 0; 0; 0; 31; 21; 196; 137; 0; 0; 0; 10; 73; 68; 65; 84; 120; 156; 99; 0; 1; 0;
        0; 5; 0; 1; 13; 10; 45; 180; 0; 0; 0; 0; 73; 69; 78; 68; 174; 66; 96; 130]).

(** What the drawing block of [create_or_serve_placeholder] comes to: the
    image it saves, an [ImportError], or another exception raised before
    anything is saved. *)
Inductive pil_outcome : Type :=
  | Drawn (png : string)
  | NoPIL
  | DrawFailed (e : string).

(** [create_or_serve_placeholder(channel_id)]. *)
Definition create_or_serve_placeholder (pil : pil_outcome) (channel_id : string)
    (st : disk_state) : file_answer * disk_state :=
  let placeholder_path := logo_path ("placeholder_" +:+ str_take 8 channel_id +:+ ".png") in
  let default_placeholder := logo_path "placeholder.png" in
  if logo_exists placeholder_path st then (sent_png placeholder_path, st)
  else if logo_exists default_placeholder st then (sent_png default_placeholder, st)
  else
    match pil with
    | Drawn png =>
        let st := logo_write placeholder_path png st in
        let st := logo_write default_placeholder png st in
        (sent_png placeholder_path, st)
    | NoPIL =>
        let st := logo_say ("[WARNING] PIL not available. Creating empty placeholder for "
                            +:+ channel_id) st in
        let st := logo_write placeholder_path empty_png st in
        (sent_png placeholder_path, st)
    | DrawFailed e =>
        (Aborted 404, logo_say ("[ERROR] Failed to create placeholder: " +:+ e) st)
    end.

Section logo.

(** What [requests.get] does for a URL, the headers and [allow_redirects],
    while one request for a logo is served. *)
Variable net : string → gmap string string → bool → outcome logo_response.

Definition logo_get (url : string) (headers : gmap string string) (allow_redirects : bool)
    (st : disk_state) : outcome logo_response * disk_state :=
  (net url headers allow_redirects,
   DiskState (disk_files st) (logo_trace st ++ [LogoFetched url headers allow_redirects])).

(** The body of the loop over [url_patterns]: the answer the route returns
    from it, or [None] when the loop goes on to the next pattern. *)
Definition fetch_logo (headers : gmap string string) (channel_id filepath url : string)
    (st : disk_state) : option file_answer * disk_state :=
  let st := logo_say ("[DEBUG] Trying to fetch logo from " +:+ url) st in
  match logo_get url headers false st with
  | (Raised e, st) =>
      (None, logo_say ("[DEBUG] Error fetching logo from " +:+ url +:+ ": " +:+ e) st)
  | (Returned response, st) =>
      let location :=
        if bool_decide (l_status response = 302)
        then header_get "Location" (l_headers response) else None in
      let followed :=
        match location with
        | Some redirected_url =>
            let st := logo_say ("[DEBUG] Redirected to: " +:+ redirected_url) st in
            match logo_get redirected_url headers true st with
            | (Returned response, st) => (Some response, st)
            | (Raised e, st) =>
                (None, logo_say ("[DEBUG] Error fetching redirected logo: " +:+ e) st)
            end
        | None => (Some response, st)
        end in
      match followed with
      | (Some response, st) =>
          if bool_decide (l_status response = 200) && truthy (l_content response) then
            let st :=
              if contains_str url "epg/cms/production"
                 || contains_str (l_url response) "epg/cms/production"
              then logo_say ("[INFO] Fallback CDN logo used for " +:+ channel_id +:+ ": "
                             +:+ l_url response) st
              else st in
            let st := logo_write filepath (l_content response) st in
            let st := logo_say ("[INFO] Successfully cached logo for " +:+ channel_id) st in
            (Some (sent_png filepath), st)
          else
            (None, logo_say ("[DEBUG] Failed to fetch logo from " +:+ url +:+ ": Status "
                             +:+ pretty.pretty (l_status response)) st)
      | (None, st) => (None, st)
      end
  end.

(** The loop over [url_patterns]. *)
Fixpoint try_patterns (headers : gmap string string) (channel_id filepath : string)
    (patterns : list string) (st : disk_state) : option file_answer * disk_state :=
  match patterns with
  | [] => (None, st)
  | url :: rest =>
      match fetch_logo headers channel_id filepath url st with
      | (Some answer, st) => (Some answer, st)
      | (None, st) => try_patterns headers channel_id filepath rest st
      end
  end.

(** [GET /logo/<channel_id>.png]; [client] is [providers.get('plex')]. *)
Definition logo (client : plex_client) (pil : pil_outcome) (channel_id : string)
    (st : disk_state) : file_answer * disk_state :=
  let filepath := logo_path (channel_id +:+ ".png") in
  if logo_exists filepath st then (sent_png filepath, st)
  else
    let token := first_token (token_keychain client) in
    if falsy token then
      create_or_serve_placeholder pil channel_id
        (logo_say ("[WARNING] No token available for logo fetch for " +:+ channel_id) st)
    else
      let headers := logo_headers client (default "" token) in
      match try_patterns headers channel_id filepath (url_patterns channel_id) st with
      | (Some answer, st) => (answer, st)
      | (None, st) =>
          create_or_serve_placeholder pil channel_id
            (logo_say ("[WARNING] All logo fetch attempts failed for " +:+ channel_id
                       +:+ ". Using placeholder.") st)
      end.

End logo.

(** An event that is no request, or a request made with [headers]. *)
Definition fetched_with (headers : gmap string string) (e : logo_event) : Prop :=
  match e with
  | LogoFetched _ h _ => h = headers
  | LogoPrinted _ => True
  end.

(** * Properties *)

(** ** Facts about the string primitives *)

Section string_facts.
Implicit Types (s p suf : string) (c sep : ascii).

Lemma str_app_nil_l s : "" +:+ s = s.
Proof. reflexivity. Qed.

Lemma str_app_cons c s t : String c s +:+ t = String c (s +:+ t).
Proof. reflexivity. Qed.

Lemma str_app_assoc s t p : (s +:+ t) +:+ p = s +:+ t +:+ p.
Proof. induction s as [|c s IH]; [done|]. by rewrite !str_app_cons, IH. Qed.

Lemma contains_app c s t : contains c (s +:+ t) = contains c s || contains c t.
Proof.
  induction s as [|d s IH]; [done|].
  rewrite str_app_cons. simpl. by destruct (decide (d = c)).
Qed.

(** *** [endswith] *)

Lemma endswith_spec s suf : endswith s suf = true ↔ ∃ p, s = p +:+ suf.
Proof.
  split.
  - induction s as [|c s IH]; simpl.
    + destruct (decide ("" = suf)) as [<-|]; [by exists ""|done].
    + destruct (decide (String c s = suf)) as [<-|]; [by exists ""|].
      intros [p ->]%IH. by exists (String c p).
  - intros [p ->]. induction p as [|c p IH].
    + rewrite str_app_nil_l. destruct suf; [done|]. simpl. by case_decide.
    + rewrite str_app_cons. simpl. by destruct (decide _).
Qed.

Lemma endswith_app p suf : endswith (p +:+ suf) suf = true.
Proof. apply endswith_spec. by exists p. Qed.

Lemma endswith_contains s suf c :
  endswith s suf = true → contains c suf = true → contains c s = true.
Proof.
  intros [p ->]%endswith_spec Hc. rewrite contains_app, Hc. apply orb_true_r.
Qed.

Lemma last_char_app s t : t ≠ "" → last_char (s +:+ t) = last_char t.
Proof.
  intros Ht. induction s as [|c s IH]; [done|].
  rewrite str_app_cons. cbn [last_char]. rewrite IH.
  destruct (s +:+ t) eqn:E; [|done]. by destruct s, t.
Qed.

Lemma endswith_last_char s suf :
  endswith s suf = true → suf ≠ "" → last_char s = last_char suf.
Proof. intros [p ->]%endswith_spec Hsuf. by apply last_char_app. Qed.


(** *** [split] and [join] *)

Lemma split_nonempty sep s : ∃ h t, split sep s = h :: t.
Proof.
  induction s as [|c s (h & t & IH)]; simpl; [by eauto|].
  case_decide; [by eauto|]. rewrite IH. by eauto.
Qed.

Lemma split_no_sep sep s : contains sep s = false → split sep s = [s].
Proof.
  induction s as [|c s IH]; simpl; [done|].
  case_decide; [done|]. intros ->%IH. done.
Qed.

(** Splitting [p sep q] gives the fields of [p], then those of [q]. *)
Lemma split_app_sep sep p q :
  split sep (p +:+ String sep q) = split sep p ++ split sep q.
Proof.
  induction p as [|c p IH].
  - rewrite str_app_nil_l. simpl. by rewrite decide_True.
  - rewrite str_app_cons. simpl. case_decide; [by rewrite IH|].
    rewrite IH. by destruct (split_nonempty sep p) as (h & t & ->).
Qed.

Lemma split_fields_no_sep sep s :
  Forall (λ x, contains sep x = false) (split sep s).
Proof.
  induction s as [|c s IH]; simpl; [by repeat constructor|].
  case_decide; [by constructor|].
  destruct (split sep s) as [|h t]; [by repeat constructor; simpl; case_decide|].
  inversion_clear IH. constructor; [|done]. simpl. by case_decide.
Qed.

Lemma contains_tail c d s : contains c s = true → contains c (String d s) = true.
Proof. intros H. simpl. rewrite H. by case_decide. Qed.

(** Every field of [s.split(sep)] is made of characters of [s]. *)
Lemma split_fields_contains sep c s :
  Forall (λ x, contains c x = true → contains c s = true) (split sep s).
Proof.
  induction s as [|d s IH]; [by repeat constructor|].
  cbn [split]. destruct (decide (d = sep)) as [->|Hd].
  - constructor; [done|]. eapply Forall_impl; [exact IH|].
    intros x Hx Hc. by apply contains_tail, Hx.
  - destruct (split_nonempty sep s) as (h & t & Hs). rewrite Hs in IH |- *.
    inversion_clear IH as [|?? Hh Ht]. constructor.
    + cbn [contains]. destruct (decide (d = c)); [done|].
      intros Hc. rewrite (Hh Hc). done.
    + eapply Forall_impl; [exact Ht|].
      intros x Hx Hc. by apply contains_tail, Hx.
Qed.

(** [sep.join(s.split(sep))] is [s]. *)
Lemma join_split sep s : join (String sep "") (split sep s) = s.
Proof.
  induction s as [|c s IH]; simpl; [done|].
  destruct (split_nonempty sep s) as (h & t & Hs). rewrite Hs in IH |- *.
  destruct (decide (c = sep)) as [->|Hc].
  - change (join (String sep "") ("" :: h :: t))
      with ("" +:+ String sep "" +:+ join (String sep "") (h :: t)).
    by rewrite IH.
  - destruct t as [|h' t]; simpl in *; [by rewrite IH|].
    by rewrite str_app_cons, IH.
Qed.

Lemma split_join sep (parts : list string) :
  parts ≠ [] →
  Forall (λ x, contains sep x = false) parts →
  split sep (join (String sep "") parts) = parts.
Proof.
  induction parts as [|x [|y parts] IH]; intros Hne Hall; [done|..].
  - simpl. apply split_no_sep. by inversion Hall.
  - change (join (String sep "") (x :: y :: parts))
      with (x +:+ String sep ("" +:+ join (String sep "") (y :: parts))).
    rewrite str_app_nil_l, split_app_sep.
    inversion_clear Hall as [|?? Hx Hrest].
    by rewrite (split_no_sep _ _ Hx), IH.
Qed.

Lemma first_item_split_app sep s t :
  contains sep s = false → first_item (split sep (s +:+ String sep t)) = s.
Proof. intros Hs. by rewrite split_app_sep, (split_no_sep _ _ Hs). Qed.

Lemma last_item_split_app sep s t :
  contains sep t = false → last_item (split sep (s +:+ String sep t)) = t.
Proof.
  intros Ht. rewrite split_app_sep, (split_no_sep _ _ Ht).
  unfold last_item. by rewrite last_last.
Qed.

Lemma first_item_no_sep sep s : contains sep (first_item (split sep s)) = false.
Proof.
  pose proof (split_fields_no_sep sep s) as H.
  destruct (split_nonempty sep s) as (h & t & Hs). rewrite Hs in H |- *.
  by inversion H.
Qed.

Lemma first_item_contains sep c s :
  contains c (first_item (split sep s)) = true → contains c s = true.
Proof.
  pose proof (split_fields_contains sep c s) as H.
  destruct (split_nonempty sep s) as (h & t & Hs). rewrite Hs in H |- *.
  by inversion H.
Qed.

Lemma last_item_in (parts : list string) : parts ≠ [] → last_item parts ∈ parts.
Proof.
  intros Hne. destruct (exists_last Hne) as (l & x & ->).
  unfold last_item. rewrite last_last. set_solver.
Qed.

Lemma last_item_no_sep sep s : contains sep (last_item (split sep s)) = false.
Proof.
  pose proof (split_fields_no_sep sep s) as H.
  rewrite Forall_forall in H. apply H, last_item_in.
  by destruct (split_nonempty sep s) as (h & t & ->).
Qed.

Lemma last_item_contains sep c s :
  contains c (last_item (split sep s)) = true → contains c s = true.
Proof.
  pose proof (split_fields_contains sep c s) as H.
  rewrite Forall_forall in H. apply H, last_item_in.
  by destruct (split_nonempty sep s) as (h & t & ->).
Qed.

(** *** [strip] *)

Lemma all_space_app s t : all_space (s +:+ t) = all_space s && all_space t.
Proof.
  induction s as [|c s IH]; [done|].
  rewrite str_app_cons. simpl. by rewrite IH, andb_assoc.
Qed.

Lemma rstrip_nonspace c s : isspace c = false → rstrip (String c s) ≠ "".
Proof. intros Hc. simpl. destruct (rstrip s); [by rewrite Hc|done]. Qed.

Lemma strip_empty s : strip s = "" → all_space s = true.
Proof.
  unfold strip. induction s as [|c s IH]; [done|].
  cbn [lstrip all_space]. destruct (isspace c) eqn:Hc; [done|].
  intros H. by apply rstrip_nonspace in H.
Qed.

(** A blank line ends with no suffix that holds a visible character. *)
Lemma blank_endswith s suf :
  truthy (strip s) = false → all_space suf = false → endswith s suf = false.
Proof.
  intros Hs Hsuf. destruct (endswith s suf) eqn:He; [|done].
  apply endswith_spec in He as [p ->].
  assert (strip (p +:+ suf) = "") as Hst by (by destruct (strip _)).
  apply strip_empty in Hst. rewrite all_space_app, Hsuf, andb_false_r in Hst. done.
Qed.

End string_facts.

(** ** Facts about the rewriter *)

Lemma rewritten_lines_map slug lines :
  rewritten_lines slug lines = map (rewrite_line slug) lines.
Proof.
  unfold rewritten_lines.
  enough (∀ acc, fold_left (λ rewritten line, rewritten ++ [rewrite_line slug line]) lines acc
                 = acc ++ map (rewrite_line slug) lines) as H by apply H.
  induction lines as [|l lines IH]; intros acc; simpl.
  - by rewrite app_nil_r.
  - by rewrite IH, <- app_assoc.
Qed.

Lemma rewritten_lines_lookup slug lines (i : nat) :
  rewritten_lines slug lines !! i = rewrite_line slug <$> lines !! i.
Proof. rewrite rewritten_lines_map. apply list_lookup_fmap. Qed.

(** The blank-line test of the loop never decides the outcome: a blank line
    ends in neither suffix, so every branch leaves it as it is. *)
Lemma rewrite_line_unfold slug line :
  rewrite_line slug line =
    if startswith line "#" then line
    else if endswith line ".ts" then
      "/segment/" +:+ slug +:+ "/" +:+ segment_num line +:+ ".ts"
    else if endswith line ".m3u8" then "/stream/" +:+ segment_num line
    else line.
Proof.
  unfold rewrite_line. destruct (startswith line "#"); [done|].
  destruct (truthy (strip line)) eqn:Hb; [done|]. simpl.
  by rewrite !(blank_endswith _ _ Hb).
Qed.

Lemma segment_num_no_slash line : contains "/" (segment_num line) = false.
Proof.
  unfold segment_num.
  destruct (contains "/" (first_item _)) eqn:H; [|done].
  apply first_item_contains in H. by rewrite last_item_no_sep in H.
Qed.

Lemma segment_num_no_dot line : contains "." (segment_num line) = false.
Proof. apply first_item_no_sep. Qed.

Lemma segment_num_contains c line :
  contains c (segment_num line) = true → contains c line = true.
Proof. intros H. by eapply last_item_contains, first_item_contains. Qed.

(** The stem of [dir/name.rest] is [name], when [name] has neither a slash
    nor a dot and [rest] has no slash. *)
Lemma segment_num_path dir name rest :
  contains "/" name = false → contains "." name = false →
  contains "/" rest = false →
  segment_num (dir +:+ "/" +:+ name +:+ "." +:+ rest) = name.
Proof.
  intros Hn1 Hn2 Hr. unfold segment_num.
  change ("/" +:+ name +:+ "." +:+ rest) with (String "/" (name +:+ "." +:+ rest)).
  rewrite last_item_split_app.
  - change ("." +:+ rest) with (String "." rest). by apply first_item_split_app.
  - by rewrite !contains_app, Hn1, Hr.
Qed.

Lemma segment_line_stable slug n :
  contains "/" n = false → contains "." n = false →
  rewrite_line slug ("/segment/" +:+ slug +:+ "/" +:+ n +:+ ".ts")
  = "/segment/" +:+ slug +:+ "/" +:+ n +:+ ".ts".
Proof.
  intros Hs Hd. rewrite rewrite_line_unfold.
  assert (startswith ("/segment/" +:+ slug +:+ "/" +:+ n +:+ ".ts") "#" = false)
    as -> by done.
  assert (endswith ("/segment/" +:+ slug +:+ "/" +:+ n +:+ ".ts") ".ts" = true) as ->.
  { apply endswith_spec. exists ("/segment/" +:+ slug +:+ "/" +:+ n).
    by rewrite !str_app_assoc. }
  do 4 f_equal.
  rewrite <- (str_app_assoc "/segment/" slug).
  change ".ts" with ("." +:+ "ts"). by apply segment_num_path.
Qed.

Lemma stream_line_stable slug n :
  contains "." n = false →
  rewrite_line slug ("/stream/" +:+ n) = "/stream/" +:+ n.
Proof.
  intros Hd. rewrite rewrite_line_unfold.
  assert (startswith ("/stream/" +:+ n) "#" = false) as -> by done.
  assert (∀ suf, contains "." suf = true → endswith ("/stream/" +:+ n) suf = false) as Hno.
  { intros suf Hsuf. destruct (endswith _ suf) eqn:He; [|done].
    apply (endswith_contains _ _ "."%char) in He; [|done].
    by rewrite contains_app, Hd in He. }
  by rewrite !Hno.
Qed.

(** One more pass over a line the loop has produced leaves it as it is. *)
Lemma rewrite_line_idem slug line :
  rewrite_line slug (rewrite_line slug line) = rewrite_line slug line.
Proof.
  rewrite (rewrite_line_unfold slug line).
  destruct (startswith line "#") eqn:H1.
  { by rewrite rewrite_line_unfold, H1. }
  destruct (endswith line ".ts") eqn:H2.
  { apply segment_line_stable; [apply segment_num_no_slash|apply segment_num_no_dot]. }
  destruct (endswith line ".m3u8") eqn:H3.
  { apply stream_line_stable, segment_num_no_dot. }
  by rewrite rewrite_line_unfold, H1, H2, H3.
Qed.

Lemma rewrite_line_no_lf slug line :
  contains LF slug = false → contains LF line = false →
  contains LF (rewrite_line slug line) = false.
Proof.
  intros Hs Hl.
  assert (contains LF (segment_num line) = false) as Hn.
  { destruct (contains LF (segment_num line)) eqn:H; [|done].
    apply segment_num_contains in H. congruence. }
  rewrite rewrite_line_unfold.
  repeat match goal with |- context [if ?b then _ else _] => destruct b end;
    rewrite ?contains_app, ?Hs, ?Hn, ?Hl; done.
Qed.

Lemma rewritten_lines_no_lf slug content :
  contains LF slug = false →
  Forall (λ x, contains LF x = false) (rewritten_lines slug (split LF content)).
Proof.
  intros Hs. rewrite rewritten_lines_map. apply Forall_map.
  eapply Forall_impl; [apply split_fields_no_sep|].
  intros x Hx. by apply rewrite_line_no_lf.
Qed.

Lemma rewritten_lines_nonempty slug content :
  rewritten_lines slug (split LF content) ≠ [].
Proof.
  rewrite rewritten_lines_map.
  by destruct (split_nonempty LF content) as (h & t & ->).
Qed.

(** ** The rewriter: segment lines, variant lines, lines left alone *)






(** C9 (amended). The rewriter is a function of the manifest text and the
    slug alone (the base URL it is handed plays no part), and for every
    manifest text and every slug that holds no line feed, rewriting the
    rewriter's own output with the same slug returns that output unchanged. *)
Theorem rewrite_idempotent content slug base_url base_url' :
  contains LF slug = false →
  rewrite_hls_playlist content slug base_url = rewrite_hls_playlist content slug base_url'
  ∧ rewrite_hls_playlist (rewrite_hls_playlist content slug base_url) slug base_url'
    = rewrite_hls_playlist content slug base_url.
Proof.
  intros Hslug. split; [done|].
  unfold rewrite_hls_playlist.
  rewrite split_join
    by (apply rewritten_lines_nonempty || by apply rewritten_lines_no_lf).
  f_equal. rewrite !rewritten_lines_map, map_map.
  apply map_ext. intros line. apply rewrite_line_idem.
Qed.

Lemma rewrite_idempotent_witness :
  rewrite_hls_playlist
    (rewrite_hls_playlist ("#EXTM3U" +:+ nl +:+ "seg/42.ts" +:+ nl +:+ "v/720p.m3u8") "abc" "u")
    "abc" "v"
  = rewrite_hls_playlist ("#EXTM3U" +:+ nl +:+ "seg/42.ts" +:+ nl +:+ "v/720p.m3u8") "abc" "u".
Proof.
  apply (rewrite_idempotent ("#EXTM3U" +:+ nl +:+ "seg/42.ts" +:+ nl +:+ "v/720p.m3u8")
           "abc" "u" "v").
  vm_compute; reflexivity.
Defined.

(** C9 as stated fails for a slug that holds a line feed: the segment line
    of the first pass is cut in two by the second pass, and its second half
    is rewritten once more. *)
Lemma rewrite_idempotent_counterexample :
  ¬ (∀ content slug base_url,
        rewrite_hls_playlist (rewrite_hls_playlist content slug base_url) slug base_url
        = rewrite_hls_playlist content slug base_url)
  ∧ rewrite_hls_playlist "1.ts" ("a" +:+ nl +:+ "b") ""
    = "/segment/a" +:+ nl +:+ "b/1.ts"
  ∧ rewrite_hls_playlist ("/segment/a" +:+ nl +:+ "b/1.ts") ("a" +:+ nl +:+ "b") ""
    = "/segment/a" +:+ nl +:+ "/segment/a" +:+ nl +:+ "b/1.ts".
Proof.
  split; [|by vm_compute].
  intros H. specialize (H "1.ts" ("a" +:+ nl +:+ "b") "").
  vm_compute in H. discriminate H.
Qed.

(** C10. The loop tests the raw line, as [split] on the line feed cut it: a
    line the rewriter changes ends in exactly [.ts] or [.m3u8] and does not
    start with [#]. So a line whose last character is white space (the
    carriage return of a CRLF manifest, a trailing blank) is passed through
    unchanged, as ["seg/42.ts\r"] is. *)
Theorem suffix_match_is_exact :
  (∀ slug content (i : nat) line out,
      split LF content !! i = Some line →
      rewritten_lines slug (split LF content) !! i = Some out →
      out ≠ line →
      (endswith line ".ts" = true ∨ endswith line ".m3u8" = true)
      ∧ startswith line "#" = false)
  ∧ (∀ slug content (i : nat) line c,
        split LF content !! i = Some line →
        last_char line = Some c → isspace c = true →
        rewritten_lines slug (split LF content) !! i = Some line)
  ∧ (∀ slug base_url,
        rewrite_hls_playlist
          ("#EXTM3U" +:+ cr +:+ nl +:+ "seg/42.ts" +:+ cr +:+ nl +:+ "v/720p.m3u8" +:+ cr)
          slug base_url
        = "#EXTM3U" +:+ cr +:+ nl +:+ "seg/42.ts" +:+ cr +:+ nl +:+ "v/720p.m3u8" +:+ cr).
Proof.
  split; [|split].
  - intros slug content i line out Hi Ho Hne.
    rewrite rewritten_lines_lookup, Hi in Ho. simpl in Ho.
    injection Ho as <-. rewrite rewrite_line_unfold in Hne.
    destruct (startswith line "#"); [done|].
    destruct (endswith line ".ts"); [by auto|].
    destruct (endswith line ".m3u8"); [by auto|done].
  - intros slug content i line c Hi Hlast Hc.
    rewrite rewritten_lines_lookup, Hi. simpl. f_equal.
    assert (∀ suf d, suf ≠ "" → last_char suf = Some d → isspace d = false →
                     endswith line suf = false) as Hno.
    { intros suf d Hsuf Hd Hsp. destruct (endswith line suf) eqn:He; [|done].
      apply endswith_last_char in He; [|done]. congruence. }
    rewrite rewrite_line_unfold.
    rewrite (Hno ".ts" "s"%char), (Hno ".m3u8" "8"%char) by done.
    by destruct (startswith _ _).
  - intros slug base_url. by vm_compute.
Qed.

Lemma suffix_match_is_exact_witness :
  rewritten_lines "abc" (split LF ("#EXTM3U" +:+ cr +:+ nl +:+ "seg/42.ts" +:+ cr)) !! 1%nat
  = Some ("seg/42.ts" +:+ cr).
Proof.
  apply (proj1 (proj2 suffix_match_is_exact) "abc"
           ("#EXTM3U" +:+ cr +:+ nl +:+ "seg/42.ts" +:+ cr) 1%nat ("seg/42.ts" +:+ cr) CR);
    vm_compute; reflexivity.
Defined.

(** ** The registry and the routes *)

Ltac run_m :=
  unfold print, external, raise_if, try_except, mbind, M_bind, mret, M_ret, gets, modify,
    raise in *; simpl in *.

Lemma lookup_update (new_map m : gmap string string) slug :
  (new_map ∪ m) !! slug
  = match new_map !! slug with Some url => Some url | None => m !! slug end.
Proof. rewrite lookup_union. by destruct (new_map !! slug), (m !! slug). Qed.

(** C8. Registering a batch sets every slug of the batch to the batch's URL
    and leaves every other slug, and the base-URL cache, as they were; both
    handlers of [POST /register] answer 200. After [{"a":"u1"}] then
    [{"b":"u2"}] both slugs resolve; after [{"a":"u3"}] the slug ["a"]
    resolves to ["u3"] and ["b"] still to ["u2"]. *)
Theorem register_merges :
  (∀ new_map w slug,
      fst (register (Returned new_map) w) = Returned (Plain "OK" 200)
      ∧ stream_map (snd (register (Returned new_map) w)) !! slug
        = match new_map !! slug with Some url => Some url | None => stream_map w !! slug end
      ∧ segment_base_map (snd (register (Returned new_map) w)) = segment_base_map w)
  ∧ (∀ new_map w slug,
        fst (register_proxy_map (Returned new_map) w)
        = Returned (Plain "Proxy map updated" 200)
        ∧ stream_map (snd (register_proxy_map (Returned new_map) w)) !! slug
          = match new_map !! slug with Some url => Some url | None => stream_map w !! slug end
        ∧ segment_base_map (snd (register_proxy_map (Returned new_map) w)) = segment_base_map w)
  ∧ (let w1 := snd (register (Returned {["a" := "u1"]}) initial_world) in
     let w2 := snd (register (Returned {["b" := "u2"]}) w1) in
     let w3 := snd (register (Returned {["a" := "u3"]}) w2) in
     (stream_map w2 !! "a" = Some "u1" ∧ stream_map w2 !! "b" = Some "u2"
      ∧ fst (stream "a" w2) = Returned (Redirect "u1" 302)
      ∧ fst (stream "b" w2) = Returned (Redirect "u2" 302))
     ∧ (stream_map w3 !! "a" = Some "u3" ∧ stream_map w3 !! "b" = Some "u2"
        ∧ fst (stream "a" w3) = Returned (Redirect "u3" 302)
        ∧ fst (stream "b" w3) = Returned (Redirect "u2" 302))).
Proof.
  split; [|split].
  - intros new_map w slug. unfold register. run_m. by rewrite lookup_update.
  - intros new_map w slug. unfold register_proxy_map. run_m. by rewrite lookup_update.
  - by vm_compute.
Qed.

Lemma rsplit1_head_path dir name :
  contains "/" name = false → rsplit1_head "/" (dir +:+ String "/" name) = dir.
Proof.
  intros Hn. induction dir as [|c dir IH].
  - rewrite str_app_nil_l. simpl. by rewrite Hn.
  - rewrite str_app_cons. cbn [rsplit1_head]. rewrite IH.
    rewrite contains_app. simpl. by rewrite orb_true_r.
Qed.


Lemma falsy_Some url : url ≠ "" → falsy (Some url) = false.
Proof. by destruct url. Qed.


Lemma register_cache json w :
  segment_base_map (snd (register json w)) = segment_base_map w.
Proof. unfold register. run_m. by destruct json. Qed.

Lemma hls_playlist_cache slug upstream w :
  segment_base_map (snd (hls_playlist slug upstream w)) = segment_base_map w.
Proof.
  unfold hls_playlist, raise_for_status. run_m.
  destruct (falsy _); [done|]. simpl.
  destruct upstream as [r|e]; simpl; [|done].
  by destruct (_ && _).
Qed.

Lemma segment_proxy_cache urljoin slug index range upstream w :
  segment_base_map (snd (segment_proxy urljoin slug index range upstream w))
  = segment_base_map w.
Proof.
  unfold segment_proxy. run_m.
  destruct (falsy (segment_base_map w !! slug)); [done|]. simpl.
  destruct (urljoin _ _); [|done].
  destruct upstream as [r|e]; simpl; [|done].
  by destruct (header_get _ _).
Qed.





(** C3 (what the code does). [GET /hls/{slug}.m3u8] never writes to the
    base-URL cache: whatever the slug, the upstream answer and the state, the
    cache after the request is the cache before it. With ["abc"] registered
    and never requested through [/stream/abc], a successful fetch of its
    manifest answers with the rewritten manifest and leaves the cache without
    an entry for ["abc"], so that the segment the manifest now points to is
    answered with 404. *)
Theorem hls_playlist_leaves_cache :
  (∀ slug upstream w,
      segment_base_map (snd (hls_playlist slug upstream w)) = segment_base_map w)
  ∧ (∀ urljoin requests,
        (∀ r, r ∈ requests → ∀ slug, r ≠ GetStream slug) →
        segment_base_map (serve urljoin requests initial_world) = ∅)
  ∧ (let w := set_stream_map (<["abc" := "http://h/live/index.m3u8"]>) initial_world in
     let upstream := Returned (Upstream 200 [] ("#EXTM3U" +:+ nl +:+ "seg/42.ts")) in
     let w' := snd (hls_playlist "abc" upstream w) in
     fst (hls_playlist "abc" upstream w)
     = Returned (Response (Text ("#EXTM3U" +:+ nl +:+ "/segment/abc/42.ts")) 200
                   "application/vnd.apple.mpegurl"
                   [("Cache-Control", "public, max-age=300")])
     ∧ base_url_of "http://h/live/index.m3u8" = "http://h/live/"
     ∧ segment_base_map w' !! "abc" = None
     ∧ ∀ urljoin range segment,
         fst (segment_proxy urljoin "abc" "42" range segment w') = Returned (Abort 404)).
Proof.
  split; [|split].
  - intros slug upstream w. apply hls_playlist_cache.
  - intros urljoin requests.
    enough (∀ w, (∀ r, r ∈ requests → ∀ slug, r ≠ GetStream slug) →
                 segment_base_map (serve urljoin requests w) = segment_base_map w)
      as H by (intros Hno; by rewrite H).
    induction requests as [|r requests IH]; intros w Hno; [done|].
    simpl. rewrite IH by (intros r' Hr'; apply Hno; by right).
    assert (∀ slug, r ≠ GetStream slug) as Hr by (apply Hno; by left).
    destruct r; simpl.
    + apply register_cache.
    + by destruct (Hr slug).
    + apply hls_playlist_cache.
    + apply segment_proxy_cache.
  - by vm_compute.
Qed.

Lemma hls_playlist_leaves_cache_witness :
  segment_base_map
    (serve (λ base rel, Returned (base +:+ rel))
       [PostRegister (Returned {["abc" := "http://h/live/index.m3u8"]});
        GetHls "abc" (Returned (Upstream 200 [] "#EXTM3U"))]
       initial_world) = ∅.
Proof.
  apply (proj1 (proj2 hls_playlist_leaves_cache)).
  intros r Hr slug ->.
  apply elem_of_cons in Hr as [Hr|Hr]; [discriminate Hr|].
  apply elem_of_cons in Hr as [Hr|Hr]; [discriminate Hr|].
  by apply elem_of_nil in Hr.
Defined.

(** ** The segment proxy *)

(** C4 (amended). [GET /segment/{slug}/{index}.ts] answers 404 when the cache
    has no entry for the slug. With an entry, it makes one streaming request
    to the cached base URL joined with [{index}.ts], carrying the client's
    [Range] header when that header is present and not empty. If the request
    raises, or its answer has no content type, the client receives 502; an
    answer that has one is relayed with the upstream's own status code,
    whatever it is, its content type, [Accept-Ranges: bytes] and a one-day
    cache lifetime. *)
Theorem segment_proxy_responses :
  (∀ urljoin slug index range upstream w,
      segment_base_map w !! slug = None →
      segment_proxy urljoin slug index range upstream w = (Returned (Abort 404), w))
  ∧ (∀ urljoin slug index range upstream w base_url segment_url,
        segment_base_map w !! slug = Some base_url → base_url ≠ "" →
        urljoin base_url (index +:+ ".ts") = Returned segment_url →
        let out := segment_proxy urljoin slug index range upstream w in
        let headers :=
          match range with
          | Some r => if decide (r = "") then [] else [("Range", r)]
          | None => []
          end in
        (∃ printed, trace (snd out) = trace w ++ Fetched segment_url headers true :: printed
                    ∧ ∀ e, e ∈ printed → ∃ line, e = Printed line)
        ∧ match upstream with
          | Raised e => fst out = Returned (Abort 502)
          | Returned req =>
              match header_get "content-type" (resp_headers req) with
              | Some content_type =>
                  fst out
                  = Returned (Response (Streamed (content req)) (status_code req) content_type
                                [("Accept-Ranges", "bytes");
                                 ("Cache-Control", "public, max-age=86400")])
              | None => fst out = Returned (Abort 502)
              end
          end).
Proof.
  split.
  - intros urljoin slug index range upstream w Hnone.
    unfold segment_proxy. run_m. by rewrite Hnone.
  - intros urljoin slug index range upstream w base_url segment_url Hbase Hne Hjoin.
    unfold segment_proxy. run_m.
    rewrite Hbase, (falsy_Some _ Hne). simpl. rewrite Hjoin.
    assert ((if falsy range then [] else [("Range", default "" range)])
            = match range with
              | Some r => if decide (r = "") then [] else [("Range", r)]
              | None => []
              end) as ->.
    { destruct range as [[|c r]|]; simpl; try done. }
    destruct upstream as [req|e]; simpl.
    + destruct (header_get _ _); simpl.
      * split; [|done]. exists []. split; [done|]. by intros e ?%elem_of_nil.
      * split; [|done]. eexists [_]. split; [by rewrite <- app_assoc|].
        intros e ->%list_elem_of_singleton. by eexists.
    + split; [|done]. eexists [_]. split; [by rewrite <- app_assoc|].
      intros e' ->%list_elem_of_singleton. by eexists.
Qed.

Lemma segment_proxy_responses_witness :
  fst (segment_proxy (λ base rel, Returned (base +:+ rel)) "abc" "42" (Some "bytes=0-99")
         (Returned (Upstream 206 [("Content-Type", "video/mp2t")] "data"))
         (set_segment_base_map (<["abc" := "http://h/live/"]>) initial_world))
  = Returned (Response (Streamed "data") 206 "video/mp2t"
                [("Accept-Ranges", "bytes"); ("Cache-Control", "public, max-age=86400")]).
Proof.
  apply (proj2 segment_proxy_responses (λ base rel, Returned (base +:+ rel)) "abc" "42"
           (Some "bytes=0-99")
           (Returned (Upstream 206 [("Content-Type", "video/mp2t")] "data"))
           (set_segment_base_map (<["abc" := "http://h/live/"]>) initial_world)
           "http://h/live/" "http://h/live/42.ts").
  - vm_compute. reflexivity.
  - discriminate.
  - vm_compute. reflexivity.
Defined.

(** C4 as stated fails where the upstream answers with a status outside
    200..299: the answer is relayed with that status, not turned into 502.
    An empty [Range] header is present and is not forwarded. *)
Lemma segment_proxy_responses_counterexample :
  ¬ (∀ urljoin slug index range upstream w base_url,
        segment_base_map w !! slug = Some base_url →
        upstream_failure upstream = true →
        fst (segment_proxy urljoin slug index range upstream w) = Returned (Abort 502))
  ∧ (let w := set_segment_base_map (<["abc" := "http://h/live/"]>) initial_world in
     let gone := Returned (Upstream 404 [("Content-Type", "text/html")] "gone") in
     upstream_failure gone = true
     ∧ segment_proxy (λ base rel, Returned (base +:+ rel)) "abc" "42" (Some "") gone w
       = (Returned (Response (Streamed "gone") 404 "text/html"
                      [("Accept-Ranges", "bytes");
                       ("Cache-Control", "public, max-age=86400")]),
          emit (Fetched "http://h/live/42.ts" [] true) w)).
Proof.
  split; [|by vm_compute].
  intros H.
  assert (segment_base_map (set_segment_base_map (<["abc" := "http://h/live/"]>) initial_world)
            !! "abc" = Some "http://h/live/") as Hb by (vm_compute; reflexivity).
  specialize (H (λ base rel, Returned (base +:+ rel)) "abc" "42" None
                (Returned (Upstream 404 [("Content-Type", "text/html")] "gone")) _ _ Hb eq_refl).
  vm_compute in H. discriminate H.
Qed.

(** ** The scheduler thread *)

Lemma epg_scheduler_returns provider epg w :
  epg_scheduler provider epg w
  = (Returned tt,
     World (stream_map w) (segment_base_map w) (trigger_events w) (jobs w)
       (trace w
        ++ [Printed ("[INFO - " +:+ upper provider +:+ "] Running EPG Scheduler for "
                     +:+ provider);
            EpgCalled provider]
        ++ epg_error_line provider epg
        ++ [Printed ("[INFO - " +:+ upper provider +:+ "] EPG Scheduler Complete")])).
Proof.
  unfold epg_scheduler, epg_error_line. run_m.
  destruct epg as [error|e]; simpl.
  - destruct (falsy error); unfold emit; simpl; by rewrite <- ?app_assoc.
  - unfold emit; simpl. by rewrite <- ?app_assoc.
Qed.

Lemma run_jobs_returns due w : fst (run_jobs due w) = Returned tt.
Proof.
  revert w. induction due as [|[p epg] due IH]; intros w; [done|].
  simpl. unfold mbind, M_bind. rewrite epg_scheduler_returns. apply IH.
Qed.

(** A pass of the main loop ends with the exception the scheduling library
    or the sleep raises, and returns when neither does, whatever [epg()] did. *)
Lemma loop_body_outcome provider t w :
  fst (loop_body provider t w)
  = match body_raises t with Some e => Raised e | None => Returned tt end.
Proof.
  unfold loop_body, run_pending, body_raises, sleep.
  unfold print, raise_if, mbind, M_bind, mret, M_ret, gets, modify, raise.
  pose proof (run_jobs_returns (t_due t) w) as Hjobs.
  destruct (run_jobs (t_due t) w) as [[[]|e] w1]; simpl in Hjobs; [|done].
  destruct (t_pending_raises t) as [e|]; [done|].
  destruct (default false (trigger_events w1 !! provider)).
  - rewrite epg_scheduler_returns. by destruct (t_sleep_raises t).
  - by destruct (t_sleep_raises t).
Qed.

Lemma main_loop_running provider ticks w :
  Forall (λ t, body_raises t = None) ticks → fst (main_loop provider ticks w) = Running.
Proof.
  intros Hall. revert w. induction Hall as [|t ticks Ht _ IH]; intros w; [done|].
  simpl. set (w0 := if t_trigger t then _ else w).
  pose proof (loop_body_outcome provider t w0) as Hb. rewrite Ht in Hb.
  destruct (loop_body provider t w0) as [[[]|e] w1]; [apply IH|done].
Qed.

Lemma main_loop_dead provider before t after e w :
  Forall (λ t, body_raises t = None) before → body_raises t = Some e →
  fst (main_loop provider (before ++ t :: after) w) = Dead
  ∧ main_loop provider (before ++ t :: after) w = main_loop provider (before ++ [t]) w
  ∧ ∃ tr, trace (snd (main_loop provider (before ++ t :: after) w))
          = tr ++ [Printed ("[ERROR - " +:+ upper provider
                            +:+ "] Error in scheduler thread: " +:+ e)].
Proof.
  intros Hall Ht. revert w. induction Hall as [|t' before Ht' _ IH]; intros w.
  - simpl. set (w0 := if t_trigger t then _ else w).
    pose proof (loop_body_outcome provider t w0) as Hb. rewrite Ht in Hb.
    destruct (loop_body provider t w0) as [[[]|e'] w1]; [done|].
    simpl in Hb. injection Hb as ->. repeat split. by eexists.
  - simpl. set (w0 := if t_trigger t' then _ else w).
    pose proof (loop_body_outcome provider t' w0) as Hb. rewrite Ht' in Hb.
    destruct (loop_body provider t' w0) as [[[]|e'] w1]; [apply IH|done].
Qed.

(** C1 (amended). An error that the provider's [epg()] returns or raises is
    printed and swallowed by [epg_scheduler], which always returns; a pass of
    the main loop in which nothing but [epg()] fails leaves the scheduler
    running. The loop exits, and the scheduler is dead, at the first exception
    that reaches the loop body's [except]: the passes after it are never run,
    and the last line printed names that exception. *)
Theorem main_loop_exits_on_first_exception :
  (∀ provider epg w,
      fst (epg_scheduler provider epg w) = Returned tt
      ∧ trace (snd (epg_scheduler provider epg w))
        = trace w
          ++ [Printed ("[INFO - " +:+ upper provider +:+ "] Running EPG Scheduler for "
                       +:+ provider);
              EpgCalled provider]
          ++ epg_error_line provider epg
          ++ [Printed ("[INFO - " +:+ upper provider +:+ "] EPG Scheduler Complete")])
  ∧ (∀ provider ticks w,
        Forall (λ t, body_raises t = None) ticks →
        fst (main_loop provider ticks w) = Running)
  ∧ (∀ provider before t after e w,
        Forall (λ t, body_raises t = None) before →
        body_raises t = Some e →
        fst (main_loop provider (before ++ t :: after) w) = Dead
        ∧ main_loop provider (before ++ t :: after) w = main_loop provider (before ++ [t]) w
        ∧ ∃ tr, trace (snd (main_loop provider (before ++ t :: after) w))
                = tr ++ [Printed ("[ERROR - " +:+ upper provider
                                  +:+ "] Error in scheduler thread: " +:+ e)]).
Proof.
  split; [|split].
  - intros provider epg w. by rewrite epg_scheduler_returns.
  - apply main_loop_running.
  - apply main_loop_dead.
Qed.

Lemma main_loop_exits_on_first_exception_witness :
  fst (main_loop "plex"
         ([Tick true [("plex", Raised "down")] None (Returned (Some "bad")) None]
          ++ Tick false [] None (Returned None) (Some "boom")
             :: [Tick false [] None (Returned None) None])
         initial_world) = Dead.
Proof.
  apply (proj2 (proj2 main_loop_exits_on_first_exception) "plex"
           [Tick true [("plex", Raised "down")] None (Returned (Some "bad")) None]
           (Tick false [] None (Returned None) (Some "boom"))
           [Tick false [] None (Returned None) None] "boom" initial_world).
  - repeat constructor.
  - reflexivity.
Defined.

(** C1 as stated fails: one exception in the loop body, the first, ends the
    loop. *)
Lemma main_loop_exits_counterexample :
  ¬ (∀ provider ticks w,
        fst (main_loop provider ticks w) = Dead →
        3 ≤ length (List.filter raising ticks))
  ∧ (let ticks := [Tick false [] None (Returned None) (Some "boom")] in
     length (List.filter raising ticks) = 1
     ∧ fst (main_loop "plex" ticks initial_world) = Dead
     ∧ trace (snd (main_loop "plex" ticks initial_world))
       = [Slept 1; Printed "[ERROR - PLEX] Error in scheduler thread: boom"]).
Proof.
  split; [|by vm_compute].
  intros H.
  specialize (H "plex" [Tick false [] None (Returned None) (Some "boom")] initial_world eq_refl).
  vm_compute in H. lia.
Qed.

(** C2 (what the code does). [epg_scheduler] returns whatever [epg()] did, so
    the first attempt of the initial loop always leaves it: [epg()] is called
    once, nothing is slept, no further attempt is made, and the main loop
    starts, also when that first [epg()] raised or returned an error. *)
Theorem initial_loop_runs_once :
  (∀ provider epg script w,
      initial_loop provider (epg :: script) w = (Running, snd (epg_scheduler provider epg w)))
  ∧ (∀ provider epg script w,
        trace (snd (initial_loop provider (epg :: script) w))
        = trace w
          ++ [Printed ("[INFO - " +:+ upper provider +:+ "] Running EPG Scheduler for "
                       +:+ provider);
              EpgCalled provider]
          ++ epg_error_line provider epg
          ++ [Printed ("[INFO - " +:+ upper provider +:+ "] EPG Scheduler Complete")])
  ∧ scheduler_thread "plex" [Raised "down"; Returned None] [] initial_world
    = (Running,
       World ∅ ∅ {["plex" := false]} [("plex", 10)]
         [Printed "[INFO - PLEX] Running EPG Scheduler for plex";
          EpgCalled "plex";
          Printed "[ERROR - PLEX] Exception in EPG Scheduler: down";
          Printed "[INFO - PLEX] EPG Scheduler Complete"]).
Proof.
  split; [|split].
  - intros provider epg script w. simpl. by rewrite epg_scheduler_returns.
  - intros provider epg script w. simpl. by rewrite epg_scheduler_returns.
  - by vm_compute.
Qed.

(** * Further properties *)

(** ** The rewriter, line by line *)

Lemma all_space_strip s : all_space s = true → strip s = "".
Proof.
  unfold strip. induction s as [|c s IH]; [done|].
  simpl. intros [Hc Hs]%andb_prop. rewrite Hc. by apply IH.
Qed.

(** X1. Comment lines and blank lines (empty, or white space only) are
    handed through as they are. *)
Theorem comment_and_blank_lines_kept slug content (i : nat) line :
  split LF content !! i = Some line →
  startswith line "#" = true ∨ all_space line = true →
  rewritten_lines slug (split LF content) !! i = Some line.
Proof.
  intros Hi Hkeep. rewrite rewritten_lines_lookup, Hi. simpl. f_equal.
  unfold rewrite_line. destruct Hkeep as [->|Hb]; [done|].
  rewrite (all_space_strip _ Hb). simpl. by rewrite orb_true_r.
Qed.

Lemma comment_and_blank_lines_kept_witness :
  rewritten_lines "abc" (split LF ("#EXT-X-ENDLIST.ts" +:+ nl +:+ "  ")) !! 1%nat
  = Some "  ".
Proof.
  apply (comment_and_blank_lines_kept "abc" ("#EXT-X-ENDLIST.ts" +:+ nl +:+ "  ") 1%nat "  ").
  - vm_compute. reflexivity.
  - right. vm_compute. reflexivity.
Defined.

(** X2. For a slug without a line feed the output has as many lines as the
    manifest, and line [i] of the output is the rewritten line [i] of the
    manifest: no line is dropped, added or moved. *)
Theorem rewrite_keeps_line_structure content slug base_url :
  contains LF slug = false →
  length (split LF (rewrite_hls_playlist content slug base_url))
  = length (split LF content)
  ∧ ∀ i : nat,
      split LF (rewrite_hls_playlist content slug base_url) !! i
      = rewrite_line slug <$> split LF content !! i.
Proof.
  intros Hslug. unfold rewrite_hls_playlist.
  rewrite split_join
    by (apply rewritten_lines_nonempty || by apply rewritten_lines_no_lf).
  split; [|intros i; apply rewritten_lines_lookup].
  by rewrite rewritten_lines_map, length_map.
Qed.

Lemma rewrite_keeps_line_structure_witness :
  length (split LF (rewrite_hls_playlist ("#EXTM3U" +:+ nl +:+ "1.ts" +:+ nl) "abc" ""))
  = length (split LF ("#EXTM3U" +:+ nl +:+ "1.ts" +:+ nl)).
Proof.
  apply (rewrite_keeps_line_structure ("#EXTM3U" +:+ nl +:+ "1.ts" +:+ nl) "abc" "").
  vm_compute. reflexivity.
Defined.

(** X3. A manifest in which every line is a comment or ends in neither
    [.ts] nor [.m3u8] comes back character for character, whatever the slug. *)
Theorem rewrite_without_media_lines content slug base_url :
  (∀ line, line ∈ split LF content →
           startswith line "#" = true
           ∨ (endswith line ".ts" = false ∧ endswith line ".m3u8" = false)) →
  rewrite_hls_playlist content slug base_url = content.
Proof.
  intros Hlines. unfold rewrite_hls_playlist.
  rewrite rewritten_lines_map.
  rewrite <- (join_split LF content) at 2. unfold nl. f_equal.
  rewrite <- (map_id (split LF content)) at 2.
  apply map_ext_in. intros line Hin%list_elem_of_In.
  rewrite rewrite_line_unfold.
  destruct (Hlines line Hin) as [->|[-> ->]]; [done|].
  by destruct (startswith line "#").
Qed.

Lemma rewrite_without_media_lines_witness :
  rewrite_hls_playlist ("#EXTM3U" +:+ nl +:+ "http://h/seg.ts?token=1" +:+ nl +:+ "") "abc" ""
  = "#EXTM3U" +:+ nl +:+ "http://h/seg.ts?token=1" +:+ nl +:+ "".
Proof.
  apply (rewrite_without_media_lines
           ("#EXTM3U" +:+ nl +:+ "http://h/seg.ts?token=1" +:+ nl +:+ "") "abc" "").
  intros line Hin.
  apply elem_of_cons in Hin as [->|Hin]; [by left|].
  apply elem_of_cons in Hin as [->|Hin]; [by right|].
  apply elem_of_cons in Hin as [->|Hin]; [by right|].
  by apply elem_of_nil in Hin.
Defined.




Lemma endswith_app_l p s suf : endswith s suf = true → endswith (p +:+ s) suf = true.
Proof.
  intros [q ->]%endswith_spec. rewrite <- str_app_assoc. apply endswith_app.
Qed.

(** X5. Only the file name of a segment line survives: two segment lines
    that name the same file under different directories are rewritten to the
    same proxy path. *)
Theorem segment_directory_is_dropped slug dir1 dir2 file :
  contains "/" file = false → endswith file ".ts" = true →
  startswith (dir1 +:+ "/" +:+ file) "#" = false →
  startswith (dir2 +:+ "/" +:+ file) "#" = false →
  rewrite_line slug (dir1 +:+ "/" +:+ file) = rewrite_line slug (dir2 +:+ "/" +:+ file).
Proof.
  intros Hf Hts H1 H2.
  assert (∀ dir, segment_num (dir +:+ "/" +:+ file) = first_item (split "." file)) as Hnum.
  { intros dir. unfold segment_num.
    change ("/" +:+ file) with (String "/" file). by rewrite last_item_split_app. }
  rewrite !rewrite_line_unfold, H1, H2.
  rewrite !(endswith_app_l _ ("/" +:+ file)) by by apply endswith_app_l.
  by rewrite !Hnum.
Qed.

Lemma segment_directory_is_dropped_witness :
  rewrite_line "abc" ("video" +:+ "/" +:+ "1.ts") = rewrite_line "abc" ("audio" +:+ "/" +:+ "1.ts").
Proof.
  apply (segment_directory_is_dropped "abc" "video" "audio" "1.ts"); vm_compute; reflexivity.
Defined.

(** ** The routes together *)

Lemma falsy_app_slash s : falsy (Some (s +:+ "/")) = false.
Proof. by destruct s. Qed.

Lemma segment_num_plain name rest :
  contains "/" name = false → contains "." name = false → contains "/" rest = false →
  segment_num (name +:+ "." +:+ rest) = name.
Proof.
  intros H1 H2 H3. unfold segment_num.
  rewrite (split_no_sep "/") by by rewrite !contains_app, H1, H3.
  change ("." +:+ rest) with (String "." rest). by apply first_item_split_app.
Qed.

(** X6. Redirect, then segment. Once [/stream/{slug}] has been served for a
    manifest URL [dir/file.m3u8], the proxy path that the rewriter writes for
    the segment line [name.ts] makes the segment route request the upstream
    URL [urljoin(dir/, name.ts)]: the segment next to the manifest. *)
Theorem stream_primes_segment_proxy urljoin slug dir file name range upstream w u :
  stream_map w !! slug = Some (dir +:+ "/" +:+ file) →
  contains "/" file = false → endswith file ".m3u8" = true →
  contains "/" name = false → contains "." name = false →
  startswith (name +:+ ".ts") "#" = false →
  urljoin (dir +:+ "/") (name +:+ ".ts") = Returned u →
  rewrite_line slug (name +:+ ".ts") = "/segment/" +:+ slug +:+ "/" +:+ name +:+ ".ts"
  ∧ segment_base_map (snd (stream slug w)) !! slug = Some (dir +:+ "/")
  ∧ ∃ headers rest,
      trace (snd (segment_proxy urljoin slug name range upstream (snd (stream slug w))))
      = trace w ++ Fetched u headers true :: rest.
Proof.
  intros Hurl Hfile Hm3u8 Hn1 Hn2 Hc Hjoin.
  assert (snd (stream slug w) = set_segment_base_map (<[slug := dir +:+ "/"]>) w) as ->.
  { unfold stream. run_m. rewrite Hurl.
    assert (falsy (Some (dir +:+ "/" +:+ file)) = false) as -> by by destruct dir.
    simpl. rewrite (endswith_app_l _ ("/" +:+ file)) by by apply endswith_app_l.
    unfold base_url_of. simpl.
    change ("/" +:+ file) with (String "/" file). by rewrite rsplit1_head_path. }
  split; [|split].
  - rewrite rewrite_line_unfold, Hc, endswith_app.
    change ".ts" with ("." +:+ "ts") at 1. by rewrite segment_num_plain.
  - simpl. apply lookup_insert_eq.
  - unfold segment_proxy. run_m. rewrite lookup_insert_eq, falsy_app_slash. simpl.
    rewrite Hjoin. eexists.
    destruct upstream as [req|e]; simpl.
    + destruct (header_get _ _); simpl.
      * by exists [].
      * eexists [_]. by rewrite <- app_assoc.
    + eexists [_]. by rewrite <- app_assoc.
Qed.

Lemma stream_primes_segment_proxy_witness :
  rewrite_line "abc" ("42" +:+ ".ts") = "/segment/" +:+ "abc" +:+ "/" +:+ "42" +:+ ".ts"
  ∧ segment_base_map
      (snd (stream "abc" (set_stream_map (<["abc" := "http://h/live" +:+ "/" +:+ "index.m3u8"]>)
                            initial_world))) !! "abc"
    = Some ("http://h/live" +:+ "/")
  ∧ ∃ headers rest,
      trace (snd (segment_proxy (λ base rel, Returned (base +:+ rel)) "abc" "42" None
                    (Raised "timeout")
                    (snd (stream "abc"
                            (set_stream_map (<["abc" := "http://h/live" +:+ "/" +:+ "index.m3u8"]>)
                               initial_world)))))
      = trace (set_stream_map (<["abc" := "http://h/live" +:+ "/" +:+ "index.m3u8"]>)
                 initial_world)
        ++ Fetched "http://h/live/42.ts" headers true :: rest.
Proof.
  apply (stream_primes_segment_proxy (λ base rel, Returned (base +:+ rel)) "abc"
           "http://h/live" "index.m3u8" "42" None (Raised "timeout")
           (set_stream_map (<["abc" := "http://h/live" +:+ "/" +:+ "index.m3u8"]>) initial_world)
           "http://h/live/42.ts"); vm_compute; reflexivity.
Defined.

Lemma world_eta w :
  World (stream_map w) (segment_base_map w) (trigger_events w) (jobs w) (trace w) = w.
Proof. by destruct w. Qed.

(** X7. Registrations compose: registering [b1] and then [b2] leaves the
    state that registering their merge, with [b2] taking precedence, leaves
    in one request; registering a batch twice is registering it once, and
    registering the empty object changes nothing. *)
Theorem register_composes b1 b2 w :
  snd (register (Returned b2) (snd (register (Returned b1) w)))
  = snd (register (Returned (b2 ∪ b1)) w)
  ∧ snd (register (Returned b1) (snd (register (Returned b1) w)))
    = snd (register (Returned b1) w)
  ∧ snd (register (Returned ∅) w) = w.
Proof.
  unfold register, set_stream_map. run_m. repeat split.
  - by rewrite (assoc_L (∪)).
  - by rewrite (assoc_L (∪)), (idemp_L (∪)).
  - rewrite (left_id_L ∅ (∪)). apply world_eta.
Qed.

Lemma stream_registry slug w : stream_map (snd (stream slug w)) = stream_map w.
Proof.
  unfold stream. run_m. destruct (falsy _); [done|]. simpl.
  by destruct (endswith _ _).
Qed.

Lemma hls_playlist_registry slug upstream w :
  stream_map (snd (hls_playlist slug upstream w)) = stream_map w.
Proof.
  unfold hls_playlist, raise_for_status. run_m.
  destruct (falsy _); [done|]. simpl.
  destruct upstream as [r|e]; simpl; [|done].
  by destruct (_ && _).
Qed.

Lemma segment_proxy_registry urljoin slug index range upstream w :
  stream_map (snd (segment_proxy urljoin slug index range upstream w)) = stream_map w.
Proof.
  unfold segment_proxy. run_m.
  destruct (falsy (segment_base_map w !! slug)); [done|]. simpl.
  destruct (urljoin _ _); [|done].
  destruct upstream as [r|e]; simpl; [|done].
  by destruct (header_get _ _).
Qed.

Lemma register_registry json w slug :
  is_Some (stream_map w !! slug) → is_Some (stream_map (snd (register json w)) !! slug).
Proof.
  unfold register. run_m. destruct json as [new_map|e]; simpl; [|done].
  rewrite lookup_update. by destruct (new_map !! slug).
Qed.

Lemma stream_cache_grows slug slug' w :
  is_Some (segment_base_map w !! slug') →
  is_Some (segment_base_map (snd (stream slug w)) !! slug').
Proof.
  unfold stream. run_m. destruct (falsy _); [done|]. simpl.
  destruct (endswith _ _); [|done]. simpl.
  rewrite lookup_insert. by case_decide.
Qed.

Lemma serve_keeps_entries urljoin requests w slug :
  (is_Some (stream_map w !! slug) →
   is_Some (stream_map (serve urljoin requests w) !! slug))
  ∧ (is_Some (segment_base_map w !! slug) →
     is_Some (segment_base_map (serve urljoin requests w) !! slug)).
Proof.
  revert w. induction requests as [|r requests IH]; intros w; [done|].
  simpl. destruct (IH (snd (handle urljoin r w))) as [IH1 IH2].
  split; intros H; [apply IH1|apply IH2]; destruct r; simpl.
  - by apply register_registry.
  - by rewrite stream_registry.
  - by rewrite hls_playlist_registry.
  - by rewrite segment_proxy_registry.
  - by rewrite register_cache.
  - by apply stream_cache_grows.
  - by rewrite hls_playlist_cache.
  - by rewrite segment_proxy_cache.
Qed.

(** X8. Nothing is ever forgotten: whatever requests are served, a slug
    that was registered stays registered and a slug that had a cached base
    URL keeps one. *)
Theorem entries_are_never_removed urljoin requests w :
  dom (stream_map w) ⊆ dom (stream_map (serve urljoin requests w))
  ∧ dom (segment_base_map w) ⊆ dom (segment_base_map (serve urljoin requests w)).
Proof.
  split; intros slug; rewrite !elem_of_dom; apply serve_keeps_entries.
Qed.

(** X9. From the start of the process on, and whatever requests are served,
    every slug with a cached base URL is a registered slug. *)
Theorem cached_slugs_are_registered urljoin requests :
  dom (segment_base_map (serve urljoin requests initial_world))
  ⊆ dom (stream_map (serve urljoin requests initial_world)).
Proof.
  enough (∀ w, dom (segment_base_map w) ⊆ dom (stream_map w) →
               dom (segment_base_map (serve urljoin requests w))
               ⊆ dom (stream_map (serve urljoin requests w))) as H.
  { apply H. simpl. by rewrite dom_empty_L. }
  induction requests as [|r requests IH]; intros w Hw; [done|].
  simpl. apply IH. destruct r; simpl.
  - rewrite register_cache. etrans; [exact Hw|].
    intros slug. rewrite !elem_of_dom. apply register_registry.
  - rewrite stream_registry. unfold stream. run_m.
    destruct (stream_map w !! slug) as [url|] eqn:Hurl; simpl; [|done].
    destruct (negb (truthy url)); [done|]. simpl.
    destruct (endswith url ".m3u8"); [|done]. simpl.
    rewrite dom_insert_L. apply union_least; [|done].
    apply singleton_subseteq_l, elem_of_dom. by rewrite Hurl.
  - by rewrite hls_playlist_cache, hls_playlist_registry.
  - by rewrite segment_proxy_cache, segment_proxy_registry.
Qed.

(** X10. Only [POST /register] writes the registry: a sequence of [GET]
    requests leaves every registered URL as it was. *)
Theorem get_routes_keep_registry urljoin requests w :
  (∀ r, r ∈ requests → ∀ json, r ≠ PostRegister json) →
  stream_map (serve urljoin requests w) = stream_map w.
Proof.
  revert w. induction requests as [|r requests IH]; intros w Hget; [done|].
  simpl. rewrite IH by (intros r' Hr'; apply Hget; by right).
  assert (∀ json, r ≠ PostRegister json) as Hr by (apply Hget; by left).
  destruct r; simpl.
  - by destruct (Hr json).
  - apply stream_registry.
  - apply hls_playlist_registry.
  - apply segment_proxy_registry.
Qed.

Lemma get_routes_keep_registry_witness :
  stream_map
    (serve (λ base rel, Returned (base +:+ rel))
       [GetStream "a"; GetHls "a" (Raised "refused"); GetSegment "a" "1" None (Raised "refused")]
       (set_stream_map (<["a" := "http://h/a.m3u8"]>) initial_world))
  = stream_map (set_stream_map (<["a" := "http://h/a.m3u8"]>) initial_world).
Proof.
  apply (get_routes_keep_registry (λ base rel, Returned (base +:+ rel))).
  intros r Hr json ->.
  apply elem_of_cons in Hr as [Hr|Hr]; [discriminate Hr|].
  apply elem_of_cons in Hr as [Hr|Hr]; [discriminate Hr|].
  apply elem_of_cons in Hr as [Hr|Hr]; [discriminate Hr|].
  by apply elem_of_nil in Hr.
Defined.

(** X11. Serving [/stream/{slug}] again changes nothing more: the second
    request gives the same answer and leaves the state the first one left. *)
Theorem stream_twice slug w :
  stream slug (snd (stream slug w)) = stream slug w.
Proof.
  unfold stream. run_m.
  destruct (stream_map w !! slug) as [url|] eqn:Hurl; simpl; [|by rewrite Hurl].
  destruct (negb (truthy url)) eqn:Ht; simpl; [by rewrite Hurl; simpl; rewrite Ht|].
  destruct (endswith url ".m3u8") eqn:Hm; simpl; rewrite Hurl; simpl; rewrite Ht, Hm; [|done].
  simpl. unfold set_segment_base_map. simpl. by rewrite insert_insert_eq.
Qed.

(** X12. For a slug registered with a non-empty URL, [/hls/{slug}.m3u8]
    answers 502 exactly when the upstream request raises or is answered with
    a status from 400 to 599; every other answer, a 1xx or 3xx one too, is
    served with status 200 as the rewritten manifest. *)
Theorem hls_playlist_status slug upstream w url :
  stream_map w !! slug = Some url → url ≠ "" →
  (fst (hls_playlist slug upstream w) = Returned (Abort 502)
   ↔ match upstream with
     | Raised _ => True
     | Returned r => 400 ≤ status_code r < 600
     end)
  ∧ (fst (hls_playlist slug upstream w) ≠ Returned (Abort 502) →
     ∃ r, upstream = Returned r
          ∧ fst (hls_playlist slug upstream w)
            = Returned (Response (Text (rewrite_hls_playlist (content r) slug ""))
                          200 "application/vnd.apple.mpegurl"
                          [("Cache-Control", "public, max-age=300")])).
Proof.
  intros Hurl Hne.
  unfold hls_playlist, raise_for_status, print, external, try_except, mbind, M_bind,
    mret, M_ret, gets, raise.
  rewrite Hurl, (falsy_Some _ Hne).
  destruct upstream as [r|e]; [|by split].
  destruct (Nat.leb_spec 400 (status_code r)) as [H1|H1];
    destruct (Nat.ltb_spec (status_code r) 600) as [H2|H2]; cbn [andb fst].
  all: split; [split; intros ?; try done; try lia; exfalso; lia
              |intros ?; try done; by exists r].
Qed.

Lemma hls_playlist_status_witness :
  (fst (hls_playlist "abc" (Returned (Upstream 304 [] "1.ts"))
          (set_stream_map (<["abc" := "http://h/a.m3u8"]>) initial_world))
   = Returned (Abort 502)
   ↔ 400 ≤ status_code (Upstream 304 [] "1.ts") < 600)
  ∧ (fst (hls_playlist "abc" (Returned (Upstream 304 [] "1.ts"))
            (set_stream_map (<["abc" := "http://h/a.m3u8"]>) initial_world))
     ≠ Returned (Abort 502) →
     ∃ r, Returned (Upstream 304 [] "1.ts") = Returned r
          ∧ fst (hls_playlist "abc" (Returned (Upstream 304 [] "1.ts"))
                   (set_stream_map (<["abc" := "http://h/a.m3u8"]>) initial_world))
            = Returned (Response (Text (rewrite_hls_playlist (content r) "abc" ""))
                          200 "application/vnd.apple.mpegurl"
                          [("Cache-Control", "public, max-age=300")])).
Proof.
  apply (hls_playlist_status "abc" (Returned (Upstream 304 [] "1.ts"))
           (set_stream_map (<["abc" := "http://h/a.m3u8"]>) initial_world) "http://h/a.m3u8").
  - vm_compute. reflexivity.
  - discriminate.
Defined.

(** ** The scheduler: what it leaves alone, and how often it refreshes *)

Lemma epg_calls_app provider tr1 tr2 :
  epg_calls provider (tr1 ++ tr2) = epg_calls provider tr1 + epg_calls provider tr2.
Proof. unfold epg_calls. by rewrite List.filter_app, length_app. Qed.

Lemma epg_error_line_calls provider p epg : epg_calls provider (epg_error_line p epg) = 0.
Proof.
  unfold epg_error_line. destruct epg as [error|e]; [|done].
  by destruct (falsy error).
Qed.

(** What [epg_scheduler] adds to the trace. *)
Lemma epg_scheduler_effect p epg w :
  ∃ tr, epg_scheduler p epg w
        = (Returned tt,
           World (stream_map w) (segment_base_map w) (trigger_events w) (jobs w)
             (trace w ++ tr))
        ∧ ∀ provider, epg_calls provider tr = if bool_decide (p = provider) then 1 else 0.
Proof.
  eexists. split; [apply epg_scheduler_returns|].
  intros provider. rewrite !epg_calls_app, epg_error_line_calls.
  unfold epg_calls. simpl. by case_bool_decide.
Qed.

Lemma run_jobs_effect due w :
  ∃ tr, run_jobs due w
        = (Returned tt,
           World (stream_map w) (segment_base_map w) (trigger_events w) (jobs w)
             (trace w ++ tr))
        ∧ ∀ provider,
            epg_calls provider tr
            = length (List.filter (λ job, bool_decide (fst job = provider)) due).
Proof.
  revert w. induction due as [|[p epg] due IH]; intros w.
  - exists []. split; [|done]. cbn. by rewrite app_nil_r, world_eta.
  - destruct (epg_scheduler_effect p epg w) as (tr1 & Hs & Hc1).
    destruct (IH (World (stream_map w) (segment_base_map w) (trigger_events w) (jobs w)
                    (trace w ++ tr1))) as (tr2 & Hj & Hc2).
    exists (tr1 ++ tr2). split.
    + cbn [run_jobs]. unfold mbind, M_bind. rewrite Hs, Hj. cbn. by rewrite <- app_assoc.
    + intros provider. rewrite epg_calls_app, Hc1, Hc2. cbn [List.filter fst].
      by case_bool_decide.
Qed.

(** A pass of the main loop in which [run_pending] does not raise: the
    refreshes it makes, and the trigger event cleared if it was set. *)
Lemma loop_body_effect provider t w :
  t_pending_raises t = None →
  ∃ tr,
    loop_body provider t w
    = (match t_sleep_raises t with Some e => Raised e | None => Returned tt end,
       World (stream_map w) (segment_base_map w)
         (if default false (trigger_events w !! provider)
          then <[provider := false]> (trigger_events w) else trigger_events w)
         (jobs w) (trace w ++ tr))
    ∧ epg_calls provider tr
      = due_calls provider t
        + (if default false (trigger_events w !! provider) then 1 else 0).
Proof.
  intros Hp. unfold loop_body, run_pending, sleep.
  unfold print, raise_if, mbind, M_bind, mret, M_ret, gets, modify, raise. rewrite Hp.
  destruct (run_jobs_effect (t_due t) w) as (tr1 & -> & Hc1). cbn [trigger_events].
  destruct (default false (trigger_events w !! provider)).
  - destruct (epg_scheduler_effect provider (t_manual t)
                (emit (Printed ("[MANUAL TRIGGER - " +:+ upper provider
                                +:+ "] Running epg_scheduler manually..."))
                   (World (stream_map w) (segment_base_map w) (trigger_events w) (jobs w)
                      (trace w ++ tr1)))) as (tr2 & -> & Hc2).
    eexists. split.
    + unfold set_trigger_events, emit. cbn.
      destruct (t_sleep_raises t); rewrite <- !app_assoc; reflexivity.
    + rewrite !epg_calls_app, Hc1, Hc2. unfold due_calls, epg_calls. cbn.
      rewrite bool_decide_true by done. lia.
  - eexists. split.
    + unfold emit. cbn. destruct (t_sleep_raises t); rewrite <- !app_assoc; reflexivity.
    + rewrite !epg_calls_app, Hc1. unfold due_calls, epg_calls. cbn. lia.
Qed.

Lemma body_raises_None t :
  body_raises t = None → t_pending_raises t = None ∧ t_sleep_raises t = None.
Proof. unfold body_raises. by destruct (t_pending_raises t). Qed.

Lemma trigger_known provider w flag :
  trigger_events w !! provider = Some flag →
  snd (trigger_epg_build provider w) = set_trigger_events (<[provider := true]>) w.
Proof.
  intros H. unfold trigger_epg_build. run_m.
  by rewrite bool_decide_true by (rewrite H; eauto).
Qed.

Lemma main_loop_effect provider ticks w flag :
  trigger_events w !! provider = Some flag →
  Forall (λ t, body_raises t = None) ticks →
  ∃ w', main_loop provider ticks w = (Running, w')
        ∧ stream_map w' = stream_map w
        ∧ segment_base_map w' = segment_base_map w
        ∧ jobs w' = jobs w
        ∧ epg_calls provider (trace w')
          = epg_calls provider (trace w) + wanted_calls provider flag ticks
        ∧ trigger_events w' !! provider
          = Some (match ticks with [] => flag | _ => false end).
Proof.
  intros Hflag Hall. revert w flag Hflag.
  induction Hall as [|t ticks Ht _ IH]; intros w flag Hflag.
  { exists w. simpl. repeat split; [lia|done]. }
  apply body_raises_None in Ht as [Hp Hs].
  cbn [main_loop].
  set (w0 := if t_trigger t then _ else w).
  assert (stream_map w0 = stream_map w ∧ segment_base_map w0 = segment_base_map w
          ∧ jobs w0 = jobs w ∧ trace w0 = trace w
          ∧ trigger_events w0 !! provider = Some (flag || t_trigger t)) as (E1 & E2 & E3 & E4 & E5).
  { subst w0. destruct (t_trigger t).
    - rewrite (trigger_known _ _ _ Hflag). cbn. rewrite lookup_insert_eq.
      by rewrite orb_true_r.
    - by rewrite orb_false_r. }
  destruct (loop_body_effect provider t w0 Hp) as (tr & -> & Hc).
  rewrite Hs. rewrite E5 in Hc |- *. cbn [default from_option id] in Hc |- *.
  match goal with |- context [main_loop provider ticks ?w1] =>
    destruct (IH w1 false) as (w' & -> & F1 & F2 & F3 & F4 & F5) end.
  { destruct (flag || t_trigger t) eqn:Hf; cbn [trigger_events];
      [apply lookup_insert_eq|exact E5]. }
  exists w'. cbn [stream_map segment_base_map jobs trace] in F1, F2, F3, F4.
  rewrite F1, F2, F3, F4, E1, E2, E3, E4.
  repeat split.
  - rewrite epg_calls_app, Hc. cbn [wanted_calls]. lia.
  - rewrite F5. by destruct ticks.
Qed.

(** X13. No refresh is lost or doubled. While no exception reaches the loop
    body, the main loop calls the provider's [epg()] once for each of its due
    jobs and once more in every pass that finds the trigger event set, by a
    route since the pass before or already before the first pass; after
    each pass the event is clear. *)
Theorem main_loop_refreshes provider ticks w flag :
  trigger_events w !! provider = Some flag →
  Forall (λ t, body_raises t = None) ticks →
  epg_calls provider (trace (snd (main_loop provider ticks w)))
  = epg_calls provider (trace w) + wanted_calls provider flag ticks
  ∧ (ticks ≠ [] → trigger_events (snd (main_loop provider ticks w)) !! provider = Some false).
Proof.
  intros Hflag Hall.
  destruct (main_loop_effect _ _ _ _ Hflag Hall) as (w' & -> & _ & _ & _ & Hc & Hf).
  cbn [snd]. split; [done|]. intros Hne. rewrite Hf. by destruct ticks.
Qed.

Lemma main_loop_refreshes_witness :
  epg_calls "plex"
    (trace (snd (main_loop "plex"
                   [Tick true [("plex", Returned None)] None (Raised "down") None;
                    Tick false [] None (Returned None) None]
                   (set_trigger_events (<["plex" := false]>) initial_world))))
  = epg_calls "plex" (trace (set_trigger_events (<["plex" := false]>) initial_world))
    + wanted_calls "plex" false
        [Tick true [("plex", Returned None)] None (Raised "down") None;
         Tick false [] None (Returned None) None]
  ∧ ([Tick true [("plex", Returned None)] None (Raised "down") None;
      Tick false [] None (Returned None) None] ≠ [] →
     trigger_events
       (snd (main_loop "plex"
               [Tick true [("plex", Returned None)] None (Raised "down") None;
                Tick false [] None (Returned None) None]
               (set_trigger_events (<["plex" := false]>) initial_world))) !! "plex"
     = Some false).
Proof.
  apply (main_loop_refreshes "plex"
           [Tick true [("plex", Returned None)] None (Raised "down") None;
            Tick false [] None (Returned None) None]
           (set_trigger_events (<["plex" := false]>) initial_world) false).
  - vm_compute. reflexivity.
  - repeat constructor.
Defined.

Lemma loop_body_frame provider t w :
  stream_map (snd (loop_body provider t w)) = stream_map w
  ∧ segment_base_map (snd (loop_body provider t w)) = segment_base_map w
  ∧ jobs (snd (loop_body provider t w)) = jobs w.
Proof.
  destruct (t_pending_raises t) as [e|] eqn:Hp.
  - unfold loop_body, run_pending.
    unfold raise_if, mbind, M_bind, raise. rewrite Hp.
    by destruct (run_jobs_effect (t_due t) w) as (tr & -> & _).
  - by destruct (loop_body_effect provider t w Hp) as (tr & -> & _).
Qed.

Lemma trigger_epg_build_frame provider w :
  stream_map (snd (trigger_epg_build provider w)) = stream_map w
  ∧ segment_base_map (snd (trigger_epg_build provider w)) = segment_base_map w
  ∧ jobs (snd (trigger_epg_build provider w)) = jobs w.
Proof. unfold trigger_epg_build. run_m. by destruct (bool_decide _). Qed.

Lemma main_loop_frame provider ticks w :
  stream_map (snd (main_loop provider ticks w)) = stream_map w
  ∧ segment_base_map (snd (main_loop provider ticks w)) = segment_base_map w
  ∧ jobs (snd (main_loop provider ticks w)) = jobs w.
Proof.
  revert w. induction ticks as [|t ticks IH]; intros w; [done|].
  cbn [main_loop]. set (w0 := if t_trigger t then _ else w).
  assert (stream_map w0 = stream_map w ∧ segment_base_map w0 = segment_base_map w
          ∧ jobs w0 = jobs w) as (E1 & E2 & E3).
  { subst w0. destruct (t_trigger t); [apply trigger_epg_build_frame|done]. }
  destruct (loop_body_frame provider t w0) as (F1 & F2 & F3).
  destruct (loop_body provider t w0) as [[[]|e] w1]; cbn [snd] in *.
  - destruct (IH w1) as (G1 & G2 & G3). by rewrite G1, G2, G3, F1, F2, F3.
  - unfold print, modify. cbn. by rewrite F1, F2, F3.
Qed.

Lemma initial_loop_frame provider script w :
  stream_map (snd (initial_loop provider script w)) = stream_map w
  ∧ segment_base_map (snd (initial_loop provider script w)) = segment_base_map w
  ∧ jobs (snd (initial_loop provider script w)) = jobs w
  ∧ trigger_events (snd (initial_loop provider script w)) = trigger_events w.
Proof.
  destruct script as [|epg script]; [done|].
  cbn [initial_loop]. by rewrite epg_scheduler_returns.
Qed.

(** X14. The scheduler thread and the proxy share nothing but the process:
    however the thread runs and ends, the registry and the base-URL cache
    are after it what they were before. *)
Theorem scheduler_keeps_proxy_state provider script ticks w :
  stream_map (snd (scheduler_thread provider script ticks w)) = stream_map w
  ∧ segment_base_map (snd (scheduler_thread provider script ticks w)) = segment_base_map w.
Proof.
  unfold scheduler_thread.
  set (w1 := set_jobs _ _).
  assert (stream_map w1 = stream_map w ∧ segment_base_map w1 = segment_base_map w)
    as [E1 E2] by (subst w1; by destruct (bool_decide _)).
  destruct (initial_loop_frame provider script w1) as (F1 & F2 & _).
  destruct (initial_loop provider script w1) as [[] w2]; cbn [snd] in *.
  - by rewrite F1, F2.
  - destruct (main_loop_frame provider ticks w2) as (G1 & G2 & _).
    by rewrite G1, G2, F1, F2.
  - by rewrite F1, F2.
Qed.

(** X15. Every start of the scheduler thread adds one job for the provider
    to the process-wide schedule, every 10 minutes for ['plex'] in any
    letter case and every 60 minutes otherwise, and no run of the thread
    removes a job: a thread started again after the first has ended leaves
    two jobs that each refresh the same provider. *)
Theorem scheduler_thread_adds_a_job provider script ticks w script' ticks' :
  jobs (snd (scheduler_thread provider script ticks w))
  = jobs w ++ [(provider, if decide (lower provider = "plex") then 10 else 60)]
  ∧ jobs (snd (scheduler_thread provider script' ticks'
                 (snd (scheduler_thread provider script ticks w))))
    = jobs w ++ [(provider, if decide (lower provider = "plex") then 10 else 60);
                 (provider, if decide (lower provider = "plex") then 10 else 60)].
Proof.
  assert (∀ script ticks w,
            jobs (snd (scheduler_thread provider script ticks w))
            = jobs w ++ [(provider, period_minutes provider)]) as Hone.
  { clear. intros script ticks w. unfold scheduler_thread.
    set (w1 := set_jobs _ _).
    assert (jobs w1 = jobs w ++ [(provider, period_minutes provider)]) as E
      by (subst w1; by destruct (bool_decide _)).
    destruct (initial_loop_frame provider script w1) as (_ & _ & F & _).
    destruct (initial_loop provider script w1) as [[] w2]; cbn [snd] in *.
    - by rewrite F.
    - destruct (main_loop_frame provider ticks w2) as (_ & _ & G). by rewrite G, F.
    - by rewrite F. }
  split; [apply Hone|]. by rewrite !Hone, <- app_assoc.
Qed.

Lemma scheduler_thread_effect provider epg script ticks w :
  Forall (λ t, body_raises t = None) ticks →
  fst (scheduler_thread provider (epg :: script) ticks w) = Running
  ∧ epg_calls provider (trace (snd (scheduler_thread provider (epg :: script) ticks w)))
    = epg_calls provider (trace w) + 1
      + wanted_calls provider (default false (trigger_events w !! provider)) ticks.
Proof.
  intros Hall. unfold scheduler_thread.
  set (w1 := set_jobs _ _).
  assert (trace w1 = trace w
          ∧ trigger_events w1 !! provider
            = Some (default false (trigger_events w !! provider))) as [E1 E2].
  { subst w1. case_bool_decide as Hk; cbn.
    - split; [done|]. by destruct Hk as [b ->].
    - split; [done|]. rewrite lookup_insert_eq.
      destruct (trigger_events w !! provider) eqn:E; [|done]. destruct Hk. eauto. }
  cbn [initial_loop].
  destruct (epg_scheduler_effect provider epg w1) as (tr & -> & Hc).
  match goal with |- context [main_loop provider ticks ?w2] =>
    destruct (main_loop_effect provider ticks w2 _ E2 Hall) as (w' & -> & _ & _ & _ & Hn & _)
  end.
  split; [done|]. cbn [snd trace] in *.
  rewrite Hn, epg_calls_app, Hc, E1, bool_decide_true by done. lia.
Qed.

(** X16. A start of the scheduler thread whose main loop meets no exception
    refreshes once at once, then as the main loop does; a trigger event that
    was set while no thread was running (the event outlives the thread) is
    served in the first pass of the new thread. *)
Theorem scheduler_thread_refreshes provider epg script ticks w :
  Forall (λ t, body_raises t = None) ticks →
  fst (scheduler_thread provider (epg :: script) ticks w) = Running
  ∧ epg_calls provider (trace (snd (scheduler_thread provider (epg :: script) ticks w)))
    = epg_calls provider (trace w) + 1
      + wanted_calls provider (default false (trigger_events w !! provider)) ticks.
Proof. apply scheduler_thread_effect. Qed.

Lemma scheduler_thread_refreshes_witness :
  fst (scheduler_thread "plex" [Raised "down"] [Tick false [] None (Returned None) None]
         (set_trigger_events (<["plex" := true]>) initial_world)) = Running
  ∧ epg_calls "plex"
      (trace (snd (scheduler_thread "plex" [Raised "down"]
                     [Tick false [] None (Returned None) None]
                     (set_trigger_events (<["plex" := true]>) initial_world))))
    = epg_calls "plex" (trace (set_trigger_events (<["plex" := true]>) initial_world)) + 1
      + wanted_calls "plex"
          (default false
             (trigger_events (set_trigger_events (<["plex" := true]>) initial_world) !! "plex"))
          [Tick false [] None (Returned None) None].
Proof.
  apply (scheduler_thread_refreshes "plex" (Raised "down") []
           [Tick false [] None (Returned None) None]
           (set_trigger_events (<["plex" := true]>) initial_world)).
  repeat constructor.
Defined.

(** X17. A trigger sent through [/{provider}/build_epg] before the
    provider's scheduler thread has ever started is lost: the route answers
    as always, no event exists to be set, and the thread that starts later
    refreshes exactly as often as it would have without the request. *)
Theorem build_epg_before_first_start provider epg script ticks w :
  trigger_events w !! provider = None →
  Forall (λ t, body_raises t = None) ticks →
  fst (build_epg provider w) = Returned (Plain "Manually Triggering EPG" 200)
  ∧ trigger_events (snd (build_epg provider w)) = trigger_events w
  ∧ epg_calls provider
      (trace (snd (scheduler_thread provider (epg :: script) ticks (snd (build_epg provider w)))))
    = epg_calls provider
        (trace (snd (scheduler_thread provider (epg :: script) ticks w))).
Proof.
  intros Hnone Hall.
  assert (build_epg provider w
          = (Returned (Plain "Manually Triggering EPG" 200),
             emit (Printed ("[ERROR - " +:+ provider
                            +:+ "] No scheduler thread found for provider: " +:+ provider)) w))
    as ->.
  { unfold build_epg, trigger_epg_build. run_m.
    by rewrite bool_decide_false by (rewrite Hnone; by intros [? ?]). }
  cbn [fst snd]. repeat split.
  destruct (scheduler_thread_effect provider epg script ticks w Hall) as [_ ->].
  destruct (scheduler_thread_effect provider epg script ticks (emit (Printed
    ("[ERROR - " +:+ provider +:+ "] No scheduler thread found for provider: " +:+ provider)) w)
    Hall) as [_ ->].
  cbn [emit trace trigger_events]. rewrite epg_calls_app. unfold epg_calls at 2. cbn. lia.
Qed.

Lemma build_epg_before_first_start_witness :
  fst (build_epg "plex" initial_world) = Returned (Plain "Manually Triggering EPG" 200)
  ∧ trigger_events (snd (build_epg "plex" initial_world)) = trigger_events initial_world
  ∧ epg_calls "plex"
      (trace (snd (scheduler_thread "plex" [Returned None]
                     [Tick false [] None (Returned None) None]
                     (snd (build_epg "plex" initial_world)))))
    = epg_calls "plex"
        (trace (snd (scheduler_thread "plex" [Returned None]
                       [Tick false [] None (Returned None) None] initial_world))).
Proof.
  apply (build_epg_before_first_start "plex" (Returned None) []
           [Tick false [] None (Returned None) None] initial_world).
  - vm_compute. reflexivity.
  - repeat constructor.
Defined.

Lemma build_epg_known provider w flag :
  trigger_events w !! provider = Some flag →
  build_epg provider w
  = (Returned (Plain "Manually Triggering EPG" 200),
     set_trigger_events (<[provider := true]>) w).
Proof.
  intros H. unfold build_epg, trigger_epg_build. run_m.
  by rewrite bool_decide_true by (rewrite H; eauto).
Qed.

(** X18. Triggers do not queue. However often [/{provider}/build_epg] is
    requested between two passes of a running scheduler, the next pass makes
    one manual refresh, next to the provider's due jobs. *)
Theorem build_epg_coalesces provider t w flag n :
  trigger_events w !! provider = Some flag →
  body_raises t = None →
  epg_calls provider
    (trace (snd (main_loop provider [t]
                   (Nat.iter (S n) (λ w, snd (build_epg provider w)) w))))
  = epg_calls provider (trace w) + due_calls provider t + 1.
Proof.
  intros Hflag Ht.
  assert (Nat.iter (S n) (λ w, snd (build_epg provider w)) w
          = set_trigger_events (<[provider := true]>) w) as ->.
  { induction n as [|n IH].
    - cbn. by rewrite (build_epg_known _ _ _ Hflag).
    - rewrite Nat.iter_succ, IH.
      rewrite (build_epg_known _ _ true) by apply lookup_insert_eq.
      unfold set_trigger_events. cbn. by rewrite insert_insert_eq. }
  assert (trigger_events (set_trigger_events (<[provider := true]>) w) !! provider = Some true)
    as Hset by apply lookup_insert_eq.
  destruct (main_loop_effect provider [t] _ _ Hset (Forall_cons_2 _ _ _ Ht (Forall_nil_2 _)))
    as (w' & -> & _ & _ & _ & Hc & _).
  cbn [snd]. rewrite Hc. cbn [wanted_calls orb trace set_trigger_events]. lia.
Qed.

Lemma build_epg_coalesces_witness :
  epg_calls "plex"
    (trace (snd (main_loop "plex" [Tick false [] None (Raised "down") None]
                   (Nat.iter 3 (λ w, snd (build_epg "plex" w))
                      (set_trigger_events (<["plex" := false]>) initial_world)))))
  = epg_calls "plex" (trace (set_trigger_events (<["plex" := false]>) initial_world))
    + due_calls "plex" (Tick false [] None (Raised "down") None) + 1.
Proof.
  apply (build_epg_coalesces "plex" (Tick false [] None (Raised "down") None)
           (set_trigger_events (<["plex" := false]>) initial_world) false 2).
  - vm_compute. reflexivity.
  - reflexivity.
Defined.

(** ** The playlist redirects and the EPG file routes *)







(** X21. The two routes to a region's guide, [/epg-{region}.xml] and
    [/plex/epg-{region}.xml], read the same file and differ in what they make
    of it: present, it is sent as [application/xml] by the first and as
    [text/plain] by the second; missing, the first answers 503 and the second
    404. *)
Theorem region_guide_has_two_routes region files :
  (is_Some (files !! ("data/plex/epg-" +:+ region +:+ ".xml")) →
   region_epg region files
   = FileSent ("data/plex/epg-" +:+ region +:+ ".xml")
       (Some "application/xml; charset=utf-8") false None
   ∧ epg_xml "plex" ("epg-" +:+ region +:+ ".xml") files
     = FileSent ("data/plex/epg-" +:+ region +:+ ".xml") (Some "text/plain") false
         (Some ("epg-" +:+ region +:+ ".xml")))
  ∧ (files !! ("data/plex/epg-" +:+ region +:+ ".xml") = None →
     region_epg region files
     = Said "EPG is still being generated. Please try again shortly." 503
     ∧ epg_xml "plex" ("epg-" +:+ region +:+ ".xml") files
       = Said "XML Being Generated Please Standby" 404).
Proof.
  assert (contains "." ("epg-" +:+ region +:+ ".xml") = true) as Hdot.
  { rewrite !contains_app. cbn. by rewrite orb_true_r. }
  assert (last_item (split "." ("epg-" +:+ region +:+ ".xml")) = "xml") as Hlast.
  { rewrite <- str_app_assoc. change ".xml" with (String "." "xml").
    by apply last_item_split_app. }
  unfold region_epg, epg_xml, send_file. rewrite Hdot, Hlast.
  change ("data/" +:+ "plex" +:+ "/" +:+ "epg-" +:+ region +:+ ".xml")
    with ("data/plex/epg-" +:+ region +:+ ".xml").
  split.
  - intros [c ->]. by rewrite decide_True.
  - intros ->. by rewrite decide_True.
Qed.

Lemma region_guide_has_two_routes_witness :
  region_epg "us" ∅ = Said "EPG is still being generated. Please try again shortly." 503
  ∧ epg_xml "plex" ("epg-" +:+ "us" +:+ ".xml") ∅
    = Said "XML Being Generated Please Standby" 404.
Proof.
  apply (proj2 (region_guide_has_two_routes "us" ∅)). vm_compute. reflexivity.
Defined.

(** ** The logo route *)

Lemma fetch_logo_effect net headers channel_id filepath url st :
  (∃ tr, logo_trace (snd (fetch_logo net headers channel_id filepath url st))
         = logo_trace st ++ LogoPrinted ("[DEBUG] Trying to fetch logo from " +:+ url)
                            :: LogoFetched url headers false :: tr
         ∧ Forall (fetched_with headers) tr)
  ∧ match fst (fetch_logo net headers channel_id filepath url st) with
    | Some answer =>
        answer = sent_png filepath
        ∧ ∃ c, disk_files (snd (fetch_logo net headers channel_id filepath url st))
               = <[filepath := c]> (disk_files st)
    | None =>
        disk_files (snd (fetch_logo net headers channel_id filepath url st)) = disk_files st
    end.
Proof.
  unfold fetch_logo, logo_get, logo_say, logo_write. cbn [disk_files logo_trace].
  destruct (net url headers false) as [r|e]; cbn [disk_files logo_trace fst snd].
  2:{ split; [|done]. eexists [_]. rewrite <- !app_assoc. split; [done|].
      by repeat constructor. }
  destruct (if bool_decide (l_status r = 302) then header_get "Location" (l_headers r) else None)
    as [loc|]; cbn [disk_files logo_trace fst snd].
  - destruct (net loc headers true) as [r'|e]; cbn [disk_files logo_trace fst snd].
    + destruct (bool_decide (l_status r' = 200) && truthy (l_content r'));
        [destruct (contains_str url _ || contains_str (l_url r') _)|];
        cbn [disk_files logo_trace fst snd].
      all: split; [|by eauto]; eexists; rewrite <- !app_assoc; (split; [reflexivity|]).
      all: by repeat constructor.
    + split; [|done]. eexists. rewrite <- !app_assoc. split; [reflexivity|].
      by repeat constructor.
  - destruct (bool_decide (l_status r = 200) && truthy (l_content r));
      [destruct (contains_str url _ || contains_str (l_url r) _)|];
      cbn [disk_files logo_trace fst snd].
    all: split; [|by eauto]; eexists; rewrite <- !app_assoc; (split; [reflexivity|]).
    all: by repeat constructor.
Qed.

Lemma try_patterns_effect net headers channel_id filepath patterns st :
  (∃ tr, logo_trace (snd (try_patterns net headers channel_id filepath patterns st))
         = logo_trace st ++ tr
         ∧ Forall (fetched_with headers) tr)
  ∧ match fst (try_patterns net headers channel_id filepath patterns st) with
    | Some answer =>
        answer = sent_png filepath
        ∧ ∃ c, disk_files (snd (try_patterns net headers channel_id filepath patterns st))
               = <[filepath := c]> (disk_files st)
    | None =>
        disk_files (snd (try_patterns net headers channel_id filepath patterns st))
        = disk_files st
    end.
Proof.
  revert st. induction patterns as [|url patterns IH]; intros st.
  { cbn. split; [|done]. exists []. by rewrite app_nil_r. }
  cbn [try_patterns].
  destruct (fetch_logo_effect net headers channel_id filepath url st) as [(tr & Ht & Hf) Hd].
  destruct (fetch_logo net headers channel_id filepath url st) as [[answer|] st1];
    cbn [fst snd] in *.
  - split; [|done]. eexists. split; [exact Ht|]. by repeat constructor.
  - destruct (IH st1) as [(tr' & Ht' & Hf') Hd'].
    split.
    + eexists. rewrite Ht', Ht, <- app_assoc. split; [reflexivity|].
      cbn. repeat constructor; try done. by apply Forall_app.
    + destruct (fst (try_patterns _ _ _ _ _ st1)); by rewrite <- Hd.
Qed.

Lemma placeholder_effect pil channel_id st :
  disk_files st ⊆ disk_files (snd (create_or_serve_placeholder pil channel_id st))
  ∧ (∃ tr, logo_trace (snd (create_or_serve_placeholder pil channel_id st))
           = logo_trace st ++ tr
           ∧ ∀ headers, Forall (fetched_with headers) tr)
  ∧ match fst (create_or_serve_placeholder pil channel_id st) with
    | FileSent path mimetype as_attachment download_name =>
        mimetype = Some "image/png"
        ∧ is_Some (disk_files (snd (create_or_serve_placeholder pil channel_id st)) !! path)
    | Said _ _ => False
    | Aborted code => code = 404 ∧ ∃ e, pil = DrawFailed e
    end.
Proof.
  unfold create_or_serve_placeholder, logo_exists.
  case_bool_decide as H1.
  { cbn. split; [done|]. split; [|done]. exists []. by rewrite app_nil_r. }
  case_bool_decide as H2.
  { cbn. split; [done|]. split; [|done]. exists []. by rewrite app_nil_r. }
  apply eq_None_not_Some in H1, H2.
  destruct pil as [png| |e]; cbn.
  - split; [|split].
    + etrans; [|apply insert_subseteq]; [by apply insert_subseteq|].
      rewrite lookup_insert_ne; [done|]. unfold logo_path. intros [=].
    + exists []. by rewrite app_nil_r.
    + split; [done|]. rewrite lookup_insert_ne by (unfold logo_path; intros [=]).
      rewrite lookup_insert_eq. eauto.
  - split; [|split].
    + by apply insert_subseteq.
    + eexists [_]. split; [done|]. intros h. by repeat constructor.
    + split; [done|]. rewrite lookup_insert_eq. eauto.
  - split; [done|]. split; [|by eauto].
    eexists [_]. split; [done|]. intros h. by repeat constructor.
Qed.

Lemma logo_cache_hit net client pil channel_id st :
  is_Some (disk_files st !! logo_path (channel_id +:+ ".png")) →
  logo net client pil channel_id st = (sent_png (logo_path (channel_id +:+ ".png")), st).
Proof. intros H. unfold logo, logo_exists. by rewrite bool_decide_true. Qed.

(** The state of the logo route before the placeholder is asked for, when
    no logo is on disk: what has been tried, and the disk as it was. *)
Lemma logo_effect net client pil channel_id st :
  disk_files st ⊆ disk_files (snd (logo net client pil channel_id st))
  ∧ (∃ tr, logo_trace (snd (logo net client pil channel_id st)) = logo_trace st ++ tr
           ∧ ∀ url h allow,
               LogoFetched url h allow ∈ tr →
               ∃ token, first_token (token_keychain client) = Some token
                        ∧ token ≠ "" ∧ h = logo_headers client token)
  ∧ match fst (logo net client pil channel_id st) with
    | FileSent path mimetype as_attachment download_name =>
        mimetype = Some "image/png"
        ∧ is_Some (disk_files (snd (logo net client pil channel_id st)) !! path)
    | Said _ _ => False
    | Aborted code => code = 404 ∧ ∃ e, pil = DrawFailed e
    end.
Proof.
  assert (∀ h (tr : list logo_event) url h' allow,
            Forall (fetched_with h) tr → LogoFetched url h' allow ∈ tr → h' = h) as Hin.
  { intros h tr url h' allow Hall Hel. rewrite Forall_forall in Hall. exact (Hall _ Hel). }
  assert (∀ (tr : list logo_event) url h allow,
            (∀ headers, Forall (fetched_with headers) tr) → LogoFetched url h allow ∉ tr)
    as Hnone.
  { intros tr url h allow Hall Hel.
    pose proof (Hin ∅ _ _ _ _ (Hall ∅) Hel) as ->.
    pose proof (Hin {["" := ""]} _ _ _ _ (Hall _) Hel) as Hne.
    apply (f_equal (lookup "")) in Hne. by rewrite lookup_empty, lookup_singleton_eq in Hne. }
  unfold logo, logo_exists. case_bool_decide as Hhit.
  { cbn. split; [done|]. split; [|done]. exists []. rewrite app_nil_r. split; [done|].
    by intros url h allow ?%elem_of_nil. }
  apply eq_None_not_Some in Hhit.
  destruct (first_token (token_keychain client)) as [token|] eqn:Htok; cbn [falsy].
  1: destruct (truthy token) eqn:Htruthy; cbn [negb default].
  2,3: match goal with |- context [create_or_serve_placeholder ?p ?i ?st0] =>
         destruct (placeholder_effect p i st0) as (Hd & (tr & Ht & Hf) & Ha) end;
       (split; [exact Hd|]); (split; [|exact Ha]);
       eexists; rewrite Ht; cbn; rewrite <- app_assoc; (split; [reflexivity|]);
       intros url h allow Hel; apply elem_of_cons in Hel as [Hel|Hel]; [done|];
       by destruct (Hnone _ _ _ _ Hf Hel).
  destruct (try_patterns_effect net (logo_headers client token) channel_id
              (logo_path (channel_id +:+ ".png")) (url_patterns channel_id) st)
    as [(tr & Ht & Hf) Hd].
  destruct (try_patterns net _ _ _ _ st) as [[answer|] st1]; cbn [fst snd] in *.
  - destruct Hd as [-> [c Hc]]. rewrite Hc. split; [by apply insert_subseteq|].
    split; [|by unfold sent_png; rewrite lookup_insert_eq; eauto].
    exists tr. split; [done|]. intros url h allow Hel. exists token.
    split; [done|]. split; [by destruct token|]. by eapply Hin.
  - match goal with |- context [create_or_serve_placeholder ?p ?i ?st0] =>
      destruct (placeholder_effect p i st0) as (Hd' & (tr' & Ht' & Hf') & Ha) end.
    cbn in Hd'. rewrite Hd in Hd'. split; [exact Hd'|]. split; [|exact Ha].
    eexists. rewrite Ht'. cbn. rewrite Ht, <- !app_assoc. split; [reflexivity|].
    intros url h allow Hel. apply elem_of_app in Hel as [Hel|Hel].
    + exists token. split; [done|]. split; [by destruct token|]. by eapply Hin.
    + apply elem_of_cons in Hel as [Hel|Hel]; [done|].
      by destruct (Hnone _ _ _ _ Hf' Hel).
Qed.

Lemma logo_headers_token client token :
  token ≠ "" → logo_headers client token !! "x-plex-token" = Some token.
Proof.
  intros Hne. unfold logo_headers. apply lookup_union_Some_l.
  destruct token as [|c token]; [done|]. by vm_compute.
Qed.

(** X22. The logo route always answers with a PNG file that is on disk
    when it answers, the logo or a placeholder; the one exception is a 404,
    given only when the drawing of a placeholder fails with an exception
    other than a missing PIL. *)
Theorem logo_answers_a_file net client pil channel_id st :
  match fst (logo net client pil channel_id st) with
  | FileSent path mimetype as_attachment download_name =>
      mimetype = Some "image/png"
      ∧ is_Some (disk_files (snd (logo net client pil channel_id st)) !! path)
  | Said _ _ => False
  | Aborted code => code = 404 ∧ ∃ e, pil = DrawFailed e
  end.
Proof. apply logo_effect. Qed.

(** X23. A logo that has been fetched once is served from disk from then
    on: the next request for the channel is answered with the same file
    without a request to the network, a line printed or a write, whatever
    the network, the tokens and PIL would do by then. *)
Theorem logo_is_fetched_once net client pil channel_id st net' client' pil' :
  fst (logo net client pil channel_id st) = sent_png (logo_path (channel_id +:+ ".png")) →
  logo net' client' pil' channel_id (snd (logo net client pil channel_id st))
  = (sent_png (logo_path (channel_id +:+ ".png")), snd (logo net client pil channel_id st)).
Proof.
  intros Hsent. apply logo_cache_hit.
  pose proof (proj2 (proj2 (logo_effect net client pil channel_id st))) as Hdisk.
  rewrite Hsent in Hdisk. apply Hdisk.
Qed.

Lemma logo_is_fetched_once_witness :
  logo (λ _ _ _, Raised "offline") (PlexClient [] ∅ "") (DrawFailed "no font") "abc"
    (snd (logo (λ _ _ _, Returned (LogoResponse 200 [] "PNG" "u"))
            (PlexClient [{["access_token" := "t"]}] ∅ "d") NoPIL "abc" (DiskState ∅ [])))
  = (sent_png (logo_path ("abc" +:+ ".png")),
     snd (logo (λ _ _ _, Returned (LogoResponse 200 [] "PNG" "u"))
            (PlexClient [{["access_token" := "t"]}] ∅ "d") NoPIL "abc" (DiskState ∅ []))).
Proof.
  apply (logo_is_fetched_once (λ _ _ _, Returned (LogoResponse 200 [] "PNG" "u"))
           (PlexClient [{["access_token" := "t"]}] ∅ "d") NoPIL "abc" (DiskState ∅ [])).
  vm_compute. reflexivity.
Defined.

(** X24. The logo route never deletes or overwrites a file: every file on
    disk before a request is on disk after it, with the same content. *)
Theorem logo_keeps_files net client pil channel_id st :
  disk_files st ⊆ disk_files (snd (logo net client pil channel_id st)).
Proof. apply logo_effect. Qed.

(** X25. Every request the logo route makes to the network, to a pattern
    URL or to the address a 302 answer names, carries the first access token
    of the keychain as [x-plex-token]; without a non-empty token it makes no
    request at all. *)
Theorem logo_requests_carry_the_token net client pil channel_id st :
  ∃ tr, logo_trace (snd (logo net client pil channel_id st)) = logo_trace st ++ tr
        ∧ ∀ url headers allow_redirects,
            LogoFetched url headers allow_redirects ∈ tr →
            ∃ token, first_token (token_keychain client) = Some token
                     ∧ token ≠ ""
                     ∧ headers !! "x-plex-token" = Some token.
Proof.
  destruct (logo_effect net client pil channel_id st) as (_ & (tr & Ht & Hf) & _).
  exists tr. split; [done|]. intros url headers allow Hel.
  destruct (Hf _ _ _ Hel) as (token & Htok & Hne & ->).
  exists token. repeat split; [done..|]. by apply logo_headers_token.
Qed.

Lemma fetch_logo_redirect net headers channel_id filepath url st r location :
  net url headers false = Returned r →
  l_status r = 302 → header_get "Location" (l_headers r) = Some location →
  LogoFetched location headers true
  ∈ logo_trace (snd (fetch_logo net headers channel_id filepath url st)).
Proof.
  intros Hnet Hst Hloc. unfold fetch_logo, logo_get, logo_say, logo_write.
  cbn [disk_files logo_trace]. rewrite Hnet. cbn [disk_files logo_trace].
  rewrite bool_decide_true by done. rewrite Hloc. cbn [disk_files logo_trace].
  destruct (net location headers true) as [r'|e]; cbn [disk_files logo_trace fst snd].
  - destruct (bool_decide (l_status r' = 200) && truthy (l_content r'));
      [destruct (contains_str url _ || contains_str (l_url r') _)|];
      cbn [disk_files logo_trace fst snd]; set_solver.
  - set_solver.
Qed.

Lemma try_patterns_cons net headers channel_id filepath url rest st :
  try_patterns net headers channel_id filepath (url :: rest) st
  = match fetch_logo net headers channel_id filepath url st with
    | (Some answer, st) => (Some answer, st)
    | (None, st) => try_patterns net headers channel_id filepath rest st
    end.
Proof. reflexivity. Qed.

Lemma logo_requests_carry_the_token_witness :
  ∃ token,
    first_token (token_keychain (PlexClient [∅; {["access_token" := "t"]}] ∅ "d")) = Some token
    ∧ token ≠ ""
    ∧ logo_headers (PlexClient [∅; {["access_token" := "t"]}] ∅ "d") "t" !! "x-plex-token"
      = Some token.
Proof.
  destruct (logo_requests_carry_the_token (λ _ _ _, Returned (LogoResponse 200 [] "PNG" "u"))
              (PlexClient [∅; {["access_token" := "t"]}] ∅ "d") NoPIL "abc" (DiskState ∅ []))
    as (tr & Htr & Htoken).
  apply (Htoken "https://provider-static.plex.tv/epg/channels/logos/gracenote/abc.png" _ false).
  assert (logo_trace
            (snd (logo (λ _ _ _, Returned (LogoResponse 200 [] "PNG" "u"))
                    (PlexClient [∅; {["access_token" := "t"]}] ∅ "d") NoPIL "abc"
                    (DiskState ∅ []))) = tr) as <- by exact Htr.
  apply list_elem_of_lookup. exists 1%nat. vm_compute. reflexivity.
Defined.

(** X26. A 302 answer with a [Location] is followed by hand: the route
    requests the address the answer names, whatever host it is, with
    redirects allowed and with the same headers, the Plex token among them. *)
Theorem logo_follows_redirect_with_token net client pil channel_id st token r location :
  disk_files st !! logo_path (channel_id +:+ ".png") = None →
  first_token (token_keychain client) = Some token → token ≠ "" →
  net ("https://provider-static.plex.tv/epg/channels/logos/gracenote/" +:+ channel_id +:+ ".png")
    (logo_headers client token) false = Returned r →
  l_status r = 302 → header_get "Location" (l_headers r) = Some location →
  LogoFetched location (logo_headers client token) true
  ∈ logo_trace (snd (logo net client pil channel_id st))
  ∧ logo_headers client token !! "x-plex-token" = Some token.
Proof.
  intros Hmiss Htok Hne Hnet Hst Hloc. split; [|by apply logo_headers_token].
  unfold logo, logo_exists.
  rewrite bool_decide_false by (rewrite Hmiss; by intros [? ?]).
  rewrite Htok. cbn [falsy]. destruct token as [|c token]; [done|]. cbn [truthy negb default].
  unfold url_patterns. rewrite try_patterns_cons.
  pose proof (fetch_logo_redirect net _ channel_id (logo_path (channel_id +:+ ".png")) _ st
                _ _ Hnet Hst Hloc) as Hin.
  destruct (fetch_logo net _ _ _ _ st) as [[answer|] st1]; cbn [fst snd] in *; [done|].
  match goal with |- context [try_patterns net ?h ?i ?f ?ps st1] =>
    destruct (try_patterns_effect net h i f ps st1) as [(tr & Ht & _) _];
    destruct (try_patterns net h i f ps st1) as [[answer|] st2] end;
    cbn [fst snd] in *.
  - rewrite Ht. set_solver.
  - match goal with |- context [create_or_serve_placeholder ?p ?i ?st0] =>
      destruct (placeholder_effect p i st0) as (_ & (tr' & Ht' & _) & _) end.
    rewrite Ht'. cbn. rewrite Ht. set_solver.
Qed.

Lemma logo_follows_redirect_with_token_witness :
  LogoFetched "http://elsewhere/x.png"
    (logo_headers (PlexClient [{["access_token" := "t"]}] ∅ "d") "t") true
  ∈ logo_trace
      (snd (logo (λ _ _ _, Returned (LogoResponse 302 [("Location", "http://elsewhere/x.png")]
                                      "" "u"))
              (PlexClient [{["access_token" := "t"]}] ∅ "d") NoPIL "abc" (DiskState ∅ [])))
  ∧ logo_headers (PlexClient [{["access_token" := "t"]}] ∅ "d") "t" !! "x-plex-token"
    = Some "t".
Proof.
  apply (logo_follows_redirect_with_token
           (λ _ _ _, Returned (LogoResponse 302 [("Location", "http://elsewhere/x.png")] "" "u"))
           (PlexClient [{["access_token" := "t"]}] ∅ "d") NoPIL "abc" (DiskState ∅ []) "t"
           (LogoResponse 302 [("Location", "http://elsewhere/x.png")] "" "u")
           "http://elsewhere/x.png"); try discriminate; vm_compute; reflexivity.
Defined.





